(** * Geometry of the ad tiler: [crop_and_resize_to_ad_size] and
      [create_panning_gif] of [ad_generation/generate_with_ai.py]

    The two functions take a Pillow image and integer target dimensions,
    compute crop boxes with Python [float] arithmetic ([/], [*], [int()])
    and hand them to [Image.crop] / [Image.resize].  The embedding keeps

    - Python's exceptions as an error monad ([result]);
    - Python's [float] as IEEE-754 binary64: every operation is the exact
      rational result rounded to nearest, ties to even, with gradual
      underflow, overflow to infinity, and the exceptions CPython raises;
    - Python's [int] as [Z];
    - Pillow's images as terms recording how they were derived (the pixel
      data is opaque to the code under study).

    The development then proves what the rounding needs (monotonicity,
    exactness on representable values), derives the crop windows of the
    two functions, and states the properties of the specification.

    The rest of the arithmetic of the repository is embedded the same
    way: [make_folder_name] and the loop of [main] over [AD_SIZES] in
    the same file, [sanitize_filename], the word wrap of
    [add_text_to_image] and the resize and sliding crops of
    [generate_ad_crops] in [ad_generation/main.py], and [site_ctr_test]
    in [stats/binomial_test.py]; their properties close the file. *)

From Stdlib Require Import ZArith QArith Qround Qabs Qpower Qreduction.
From Stdlib Require Import NArith Ascii String DecimalString.
From Stdlib Require Import List Bool Lia Lqa.
From Stdlib Require Floats.SpecFloat.
Import ListNotations.

Local Open Scope Z_scope.

(* ================================================================= *)
(** ** Python exceptions *)

Module Py.

Inductive exn : Type :=
| ZeroDivisionError
| OverflowError
| ValueError.

Inductive result (A : Type) : Type :=
| Ok (a : A)
| Raise (e : exn).
Arguments Ok {A} a.
Arguments Raise {A} e.

Definition bind {A B} (c : result A) (k : A -> result B) : result B :=
  match c with
  | Ok a => k a
  | Raise e => Raise e
  end.

(** A [for] loop that appends one value per iteration and stops at the
    first exception. *)
Fixpoint for_each {A B} (body : A -> result B) (xs : list A)
  : result (list B) :=
  match xs with
  | [] => Ok []
  | x :: xs' =>
      bind (body x) (fun y =>
      bind (for_each body xs') (fun ys => Ok (y :: ys)))
  end.

(** [range(n)]: [0, 1, ..., n-1], empty when [n <= 0]. *)
Definition range (n : Z) : list Z :=
  map Z.of_nat (seq 0 (Z.to_nat n)).

End Py.
Import Py.

Declare Scope py_scope.
Delimit Scope py_scope with py.
Notation "x <- c ;; k" := (bind c (fun x => k))
  (at level 61, c at next level, right associativity) : py_scope.
Local Open Scope py_scope.

(* ================================================================= *)
(** ** Python floats (IEEE-754 binary64) *)

Module Binary64.

Local Open Scope Q_scope.

Definition prec : Z := 53.
Definition emin : Z := -1074.
Definition emax : Z := 1024.

(** [2^e] as a rational, for any integer exponent. *)
Definition pow2 (e : Z) : Q := 2 ^ e.

(** [floor (log2 (n/d))] for positive [n], [d]. *)
Definition ilog2_ratio (n d : Z) : Z :=
  let l := (Z.log2 n - Z.log2 d)%Z in
  if (0 <=? l)%Z
  then (if (d * 2 ^ l <=? n)%Z then l else l - 1)%Z
  else (if (d <=? n * 2 ^ (- l))%Z then l else l - 1)%Z.

Definition Qlog2 (x : Q) : Z := ilog2_ratio (Qnum x) (Zpos (Qden x)).

(** Round to the nearest integer, ties to even. *)
Definition rne (x : Q) : Z :=
  let f := Qfloor x in
  match ((x - inject_Z f) ?= (1 # 2))%Q with
  | Lt => f
  | Gt => (f + 1)%Z
  | Eq => if Z.even f then f else (f + 1)%Z
  end.

(** Exponent of the unit in the last place of a positive [x]: 53
    significant bits, but never below the subnormal exponent. *)
Definition ulp_exp (x : Q) : Z := Z.max (Qlog2 x - (prec - 1)) emin.

Definition round_pos (x : Q) : Q :=
  let e := ulp_exp x in
  Qred (inject_Z (rne (x / pow2 e)) * pow2 e).

(** Rounding to nearest-even with an unbounded exponent range above. *)
Definition round (x : Q) : Q :=
  match x ?= 0 with
  | Eq => 0
  | Gt => round_pos x
  | Lt => - round_pos (- x)
  end.

(** The rounded value does not fit below [2^emax]. *)
Definition overflows (y : Q) : bool := Qle_bool (pow2 emax) (Qabs y).

(** A float is a finite binary64 value (held as the rational it
    denotes; the two zeros are not told apart, which none of the
    operations below can observe), an infinity, or NaN. *)
Inductive float : Type :=
| Fin (q : Q)
| Inf (negative : bool)
| NaN.

Definition Qneg (q : Q) : bool := match q ?= 0 with Lt => true | _ => false end.
Definition Qzero (q : Q) : bool := match q ?= 0 with Eq => true | _ => false end.

(** IEEE result of an operation whose exact value is [x]. *)
Definition ieee (x : Q) : float :=
  let y := round x in
  if overflows y then Inf (Qneg x) else Fin y.

(** [float(a)] for an [int]: correctly rounded, [OverflowError] when
    too large. *)
Definition float_of_int (a : Z) : result float :=
  let y := round (inject_Z a) in
  if overflows y then Raise OverflowError else Ok (Fin y).

(** [a / b] on two [int]s: the correctly rounded quotient of the exact
    integers. *)
Definition int_truediv (a b : Z) : result float :=
  if (b =? 0)%Z then Raise ZeroDivisionError
  else
    let y := round (inject_Z a / inject_Z b) in
    if overflows y then Raise OverflowError else Ok (Fin y).

(** [x * y] on floats. *)
Definition float_mul (x y : float) : float :=
  match x, y with
  | NaN, _ | _, NaN => NaN
  | Fin p, Fin q => ieee (p * q)
  | Fin p, Inf s | Inf s, Fin p =>
      if Qzero p then NaN else Inf (xorb s (Qneg p))
  | Inf s, Inf t => Inf (xorb s t)
  end.

(** [x / y] on floats; Python raises on a zero divisor. *)
Definition float_div (x y : float) : result float :=
  match x, y with
  | _, Fin q =>
      if Qzero q then Raise ZeroDivisionError
      else Ok match x with
              | Fin p => ieee (p / q)
              | Inf s => Inf (xorb s (Qneg q))
              | NaN => NaN
              end
  | NaN, _ | _, NaN => Ok NaN
  | Fin _, Inf _ => Ok (Fin 0)
  | Inf _, Inf _ => Ok NaN
  end.

(** [x < y] on floats. *)
Definition float_lt (x y : float) : bool :=
  match x, y with
  | NaN, _ | _, NaN => false
  | Fin p, Fin q => match p ?= q with Lt => true | _ => false end
  | Fin _, Inf s => negb s
  | Inf s, Fin _ => s
  | Inf s, Inf t => s && negb t
  end.

(** [x > y] on floats. *)
Definition float_gt (x y : float) : bool := float_lt y x.

(** Truncation of a rational toward zero. *)
Definition Qtrunc (q : Q) : Z :=
  if Qneg q then (- Qfloor (- q))%Z else Qfloor q.

(** [int(x)]. *)
Definition int_of_float (x : float) : result Z :=
  match x with
  | Fin q => Ok (Qtrunc q)
  | Inf _ => Raise OverflowError
  | NaN => Raise ValueError
  end.

(** [a * y] and [a / y] with an [int] on the left: the [int] is first
    converted. *)
Definition int_mul_float (a : Z) (y : float) : result float :=
  x <- float_of_int a ;; Ok (float_mul x y).

Definition int_div_float (a : Z) (y : float) : result float :=
  x <- float_of_int a ;; float_div x y.

(** Reading a finite float back as mantissa and exponent of the
    standard library's [spec_float], to compare with its operations. *)
Definition to_spec (x : float) : SpecFloat.spec_float :=
  match x with
  | Fin q =>
      match Qnum q with
      | Z0 => SpecFloat.S754_zero false
      | Zpos n =>
          let e := ulp_exp q in
          match rne (q / pow2 e) with
          | Zpos m => SpecFloat.S754_finite false m e
          | _ => SpecFloat.S754_zero false
          end
      | Zneg n =>
          let e := ulp_exp (- q) in
          match rne (- q / pow2 e) with
          | Zpos m => SpecFloat.S754_finite true m e
          | _ => SpecFloat.S754_zero true
          end
      end
  | Inf s => SpecFloat.S754_infinity s
  | NaN => SpecFloat.S754_nan
  end.

End Binary64.
Import Binary64.

(* ================================================================= *)
(** ** Pillow images *)

Module PIL.

(** A crop box [(left, upper, right, lower)]. *)
Definition box : Type := Z * Z * Z * Z.

(** An image is known by how it was obtained: a decoded source of a
    given size, a crop of an image, or a resampling of an image.  The
    pixel data and the resampling filter stay opaque. *)
Inductive Image : Type :=
| Source (width height : Z)
| Crop (b : box) (im : Image)
| Resize (sz : Z * Z) (im : Image).

(** [image.size] *)
Definition size (im : Image) : Z * Z :=
  match im with
  | Source w h => (w, h)
  | Crop (l, u, r, d) _ => (r - l, d - u)
  | Resize sz _ => sz
  end.

(** [image.crop(box)] and [image.resize(size, LANCZOS)].  The calls are
    recorded as they are made; what Pillow itself does with an empty
    or inverted box or with a non-positive size is not part of the
    code under study. *)
Definition crop (im : Image) (b : box) : Image := Crop b im.
Definition resize (im : Image) (sz : Z * Z) : Image := Resize sz im.

(** Pillow keeps both dimensions of an image in a C [int], so the size
    of any image the functions can be given is positive and at most
    [INT_MAX]. *)
Definition INT_MAX : Z := 2147483647.

Definition valid_size (sz : Z * Z) : Prop :=
  0 < fst sz <= INT_MAX /\ 0 < snd sz <= INT_MAX.

(** An animated GIF written by [Image.save(..., save_all=True)]. *)
Record Gif : Type := mkGif {
  first_frame : Image;
  append_images : list Image;
  duration : Z;
  loop : Z
}.

Definition gif_frames (g : Gif) : list Image :=
  first_frame g :: append_images g.

(** [if frames: frames[0].save(path, save_all=True,
    append_images=frames[1:], duration=duration, loop=0)]: the file
    written, if any. *)
Definition save_gif (frames : list Image) (duration : Z) : option Gif :=
  match frames with
  | [] => None
  | f0 :: rest => Some (mkGif f0 rest duration 0)
  end.

End PIL.
Import PIL.

(* ================================================================= *)
(** ** The functions of [generate_with_ai.py] *)

(** Animated GIF settings of the script. *)
Definition GIF_NUM_FRAMES : Z := 40.
Definition GIF_FRAME_DURATION : Z := 300.

(** [crop_and_resize_to_ad_size(image, target_width, target_height)] *)
Definition crop_and_resize_to_ad_size
    (image : Image) (target_width target_height : Z) : result Image :=
  let '(img_width, img_height) := size image in
  target_aspect <- int_truediv target_width target_height ;;
  current_aspect <- int_truediv img_width img_height ;;
  cropped <-
    (if float_gt current_aspect target_aspect then
       scaled <- int_mul_float img_height target_aspect ;;
       new_width <- int_of_float scaled ;;
       let left := (img_width - new_width) / 2 in
       Ok (crop image (left, 0, left + new_width, img_height))
     else if float_lt current_aspect target_aspect then
       scaled <- int_div_float img_width target_aspect ;;
       new_height <- int_of_float scaled ;;
       let top := (img_height - new_height) / 2 in
       Ok (crop image (0, top, img_width, top + new_height))
     else
       Ok image) ;;
  Ok (resize cropped (target_width, target_height)).

(** The crop window of [create_panning_gif] and its pan range, as
    computed before the frame loop (the [if]/[else] on the target's
    orientation, up to [max_top] / [max_left]). *)
Record PanWindow : Type := mkPanWindow {
  vertical : bool;       (* landscape ad: pan top to bottom *)
  crop_width : Z;
  crop_height : Z;
  max_offset : Z         (* [max_top] or [max_left] *)
}.

Definition pan_window
    (image : Image) (target_width target_height : Z) : result PanWindow :=
  let '(img_width, img_height) := size image in
  target_aspect <- int_truediv target_width target_height ;;
  if target_width >? target_height then
    let crop_width := img_width in
    scaled <- int_div_float crop_width target_aspect ;;
    crop_height <- int_of_float scaled ;;
    shrunk <-
      (if crop_height >? img_height then
         let crop_height := img_height in
         scaled <- int_mul_float crop_height target_aspect ;;
         crop_width <- int_of_float scaled ;;
         Ok (crop_width, crop_height)
       else Ok (crop_width, crop_height)) ;;
    let '(crop_width, crop_height) := shrunk in
    let max_top := img_height - crop_height in
    Ok (mkPanWindow true crop_width crop_height max_top)
  else
    let crop_height := img_height in
    scaled <- int_mul_float crop_height target_aspect ;;
    crop_width <- int_of_float scaled ;;
    shrunk <-
      (if crop_width >? img_width then
         let crop_width := img_width in
         scaled <- int_div_float crop_width target_aspect ;;
         crop_height <- int_of_float scaled ;;
         Ok (crop_width, crop_height)
       else Ok (crop_width, crop_height)) ;;
    let '(crop_width, crop_height) := shrunk in
    let max_left := img_width - crop_width in
    Ok (mkPanWindow false crop_width crop_height max_left).

(** The pan offset of iteration [i]:
    [int((max_offset * i) / (num_frames - 1)) if num_frames > 1 else 0] *)
Definition pan_offset (max_offset num_frames i : Z) : result Z :=
  if num_frames >? 1 then
    q <- int_truediv (max_offset * i) (num_frames - 1) ;;
    int_of_float q
  else Ok 0.

(** The crop box of iteration [i]. *)
Definition pan_box (image : Image) (w : PanWindow) (num_frames i : Z)
  : result box :=
  let '(img_width, img_height) := size image in
  if vertical w then
    top <- pan_offset (max_offset w) num_frames i ;;
    let left := (img_width - crop_width w) / 2 in
    Ok (left, top, left + crop_width w, top + crop_height w)
  else
    left <- pan_offset (max_offset w) num_frames i ;;
    let top := (img_height - crop_height w) / 2 in
    Ok (left, top, left + crop_width w, top + crop_height w).

(** The body of the frame loop. *)
Definition pan_frame (image : Image) (target_width target_height : Z)
    (w : PanWindow) (num_frames i : Z) : result Image :=
  b <- pan_box image w num_frames i ;;
  let cropped := crop image b in
  Ok (resize cropped (target_width, target_height)).

(** The list [frames] that [create_panning_gif] has built when it
    reaches the save. *)
Definition pan_frames
    (image : Image) (target_width target_height num_frames : Z)
  : result (list Image) :=
  w <- pan_window image target_width target_height ;;
  if max_offset w >? 0 then
    for_each (pan_frame image target_width target_height w num_frames)
             (range num_frames)
  else
    f <- crop_and_resize_to_ad_size image target_width target_height ;;
    Ok [f].

(** [create_panning_gif(image, target_width, target_height, output_path,
    num_frames, duration)]: the result is what is written at
    [output_path], [None] when the save is skipped. *)
Definition create_panning_gif
    (image : Image) (target_width target_height : Z)
    (num_frames duration : Z) : result (option Gif) :=
  frames <- pan_frames image target_width target_height num_frames ;;
  Ok (save_gif frames duration).

(* ================================================================= *)
(** ** Vocabulary of the specification *)

(** A non-negative rational is representable when it is [m * 2^k] with a
    53-bit mantissa and an exponent no smaller than the subnormal one. *)
Definition representable (t : Q) : Prop :=
  exists m k, 0 <= m < 2 ^ 53 /\ emin <= k /\ (t == inject_Z m * pow2 k)%Q.

(** A crop box lies within an image of size [sz] (and is not inverted). *)
Definition box_within (b : box) (sz : Z * Z) : Prop :=
  let '(l, u, r, d) := b in
  0 <= l /\ l <= r /\ r <= fst sz /\ 0 <= u /\ u <= d /\ d <= snd sz.

(** The value of [int((m * i) / (n - 1))]. *)
Definition offset_value (m n i : Z) : Z :=
  Qfloor (round (inject_Z (m * i) / inject_Z (n - 1))).

(** [frame_of image sz b f]: [f] is the frame of size [sz] obtained from
    the window [b] of [image]; a frame made without a crop uses the
    whole image. *)
Inductive frame_of (image : Image) (sz : Z * Z) : box -> Image -> Prop :=
| frame_cropped (b : box) : frame_of image sz b (Resize sz (Crop b image))
| frame_whole :
    frame_of image sz (0, 0, fst (size image), snd (size image))
             (Resize sz image).

(** The coordinate of a window along the pan axis. *)
Definition pan_coordinate (w : PanWindow) (b : box) : Z :=
  let '(l, u, _, _) := b in if vertical w then u else l.

(** The value of the pan offset of iteration [i]. *)
Definition pan_offset_value (m n i : Z) : Z :=
  if n >? 1 then offset_value m n i else 0.

(** The crop box of a frame whose pan offset is [off]. *)
Definition pan_box_value (sz : Z * Z) (w : PanWindow) (off : Z) : box :=
  let '(W, H) := sz in
  if vertical w then
    let left := (W - crop_width w) / 2 in
    (left, off, left + crop_width w, off + crop_height w)
  else
    let top := (H - crop_height w) / 2 in
    (off, top, off + crop_width w, top + crop_height w).

Definition pan_frame_value (image : Image) (tw th : Z) (w : PanWindow)
    (n i : Z) : Image :=
  Resize (tw, th)
    (Crop (pan_box_value (size image) w
             (pan_offset_value (max_offset w) n i)) image).

(* ================================================================= *)
(** ** Python strings *)

Module PyStr.

(** A [str] is a sequence of Unicode code points. *)
Definition char : Type := N.
Definition str : Type := list char.

(** An ASCII literal as a [str]. *)
Definition of_string (s : String.string) : str :=
  map Ascii.N_of_ascii (String.list_ascii_of_string s).

Definition underscore : char := 95%N.
Definition space : char := 32%N.

(** [s[:k]], also for a negative [k]. *)
Definition slice_to (k : Z) (s : str) : str :=
  if k <? 0 then firstn (length s - Z.to_nat (- k)) s
  else firstn (Z.to_nat k) s.

(** [s.lstrip(c)], [s.rstrip(c)] and [s.strip(c)] for a one-character
    [c]. *)
Fixpoint lstrip (c : char) (s : str) : str :=
  match s with
  | [] => []
  | x :: s' => if (x =? c)%N then lstrip c s' else s
  end.

Definition rstrip (c : char) (s : str) : str := rev (lstrip c (rev s)).

Definition strip (c : char) (s : str) : str := rstrip c (lstrip c s).

(** [sep.join(parts)] *)
Fixpoint join (sep : str) (parts : list str) : str :=
  match parts with
  | [] => []
  | [p] => p
  | p :: ps => p ++ sep ++ join sep ps
  end.

(** [str(z)] for an [int]. *)
Definition str_of_int (z : Z) : str :=
  of_string (DecimalString.NilZero.string_of_int (Z.to_int z)).

(** [range(start, stop, step)] as a list; a zero step is an error. *)
Definition range_step (start stop step : Z) : result (list Z) :=
  if step =? 0 then Raise ValueError
  else
    let count :=
      if 0 <? step then (stop - start + step - 1) / step
      else (start - stop - step - 1) / (- step) in
    Ok (map (fun k => start + Z.of_nat k * step) (seq 0 (Z.to_nat count))).

End PyStr.
Import PyStr.

(* ================================================================= *)
(** ** The rest of [generate_with_ai.py] *)

Section FolderName.

(** [c.isalnum()] for a character [c], as given by the Unicode tables of
    the interpreter. *)
Variable isalnum : char -> bool.

(** The prompt part of the folder name: the first 50 characters with
    every non-alphanumeric one replaced, then stripped of underscores at
    both ends. *)
Definition safe_prompt (prompt : str) : str :=
  strip underscore
    (map (fun c => if isalnum c then c else underscore)
         (slice_to 50 prompt)).

(** [make_folder_name(prompt, seed)]; [timestamp] is
    [datetime.now().strftime("%Y%m%d_%H%M%S")]. *)
Definition make_folder_name (timestamp prompt : str) (seed : Z) : str :=
  timestamp ++ [underscore] ++ safe_prompt prompt
            ++ of_string "_seed"%string ++ str_of_int seed.

End FolderName.







(* ================================================================= *)
(** ** [ad_generation/main.py] *)

Definition is_ascii_alnum (c : char) : bool :=
  ((48 <=? c) && (c <=? 57) || (65 <=? c) && (c <=? 90)
   || (97 <=? c) && (c <=? 122))%N.

(** [str.lower] on the characters that survive the substitution. *)
Definition ascii_lower (c : char) : char :=
  if ((65 <=? c) && (c <=? 90))%N then (c + 32)%N else c.

(** [sanitize_filename(text, max_length)]:
    [re.sub(r'[^a-zA-Z0-9]', '', text).lower()[:max_length]] *)
Definition sanitize_filename (text : str) (max_length : Z) : str :=
  let cleaned := map ascii_lower (filter is_ascii_alnum text) in
  slice_to max_length cleaned.


(** The sliding-window crops of [generate_ad_crops] for one ad size, in
    the order of [crop_index]. *)
Definition sliding_crops (resized_img : Image) (new_size ad : Z * Z)
    (step_size : Z) : result (list Image) :=
  let '(new_width, new_height) := new_size in
  let '(ad_width, ad_height) := ad in
  if (ad_width >? new_width) || (ad_height >? new_height) then Ok []
  else
    y_positions <- range_step 0 (new_height - ad_height + 1) step_size ;;
    x_positions <- range_step 0 (new_width - ad_width + 1) step_size ;;
    Ok (flat_map
          (fun y =>
             map (fun x =>
                    crop resized_img (x, y, x + ad_width, y + ad_height))
                 x_positions)
          y_positions).


Section WordWrap.

(** [bbox[2] - bbox[0]] for [bbox = draw.textbbox((0, 0), s, font=font)]. *)
Variable text_width : str -> Z.

(** One iteration of the wrapping loop of [add_text_to_image], on the
    pair [(lines, current_line)]. *)
Definition wrap_step (available : Z) (st : list str * list str)
    (word : str) : list str * list str :=
  let '(lines, current_line) := st in
  let test_line := join [space] (current_line ++ [word]) in
  if text_width test_line <=? available then
    (lines, current_line ++ [word])
  else
    match current_line with
    | _ :: _ => (lines ++ [join [space] current_line], [word])
    | [] => (lines ++ [word], current_line)
    end.

(** The lines that [add_text_to_image] draws for the words of a text. *)
Definition wrap_words (img_width offset : Z) (words : list str)
  : list str :=
  let '(lines, current_line) :=
    fold_left (wrap_step (img_width - offset * 2)) words ([], []) in
  match current_line with
  | _ :: _ => lines ++ [join [space] current_line]
  | [] => lines
  end.

(** A line made of the words [c] is acceptable for the width
    [available] when it fits or is a single word. *)
Definition line_ok (available : Z) (c : list str) : Prop :=
  c <> [] /\
  (text_width (join [space] c) <= available \/ length c = 1%nat).

(** The state [(lines, current_line)] of the loop after the words
    [done]: the finished lines are the chunks [chunks] of [done], and
    the open line is the rest. *)
Definition wrap_inv (available : Z) (done : list str)
    (st : list str * list str) : Prop :=
  exists chunks,
    fst st = map (join [space]) chunks /\
    concat chunks ++ snd st = done /\
    Forall (line_ok available) chunks /\
    (snd st = [] \/ line_ok available (snd st)).

End WordWrap.

(* ================================================================= *)
(** ** [stats/binomial_test.py] *)

Section BinomialTest.

(** [binomtest(clicks, impressions, target_ctr, alternative="less").pvalue]
    of SciPy. *)
Variable binomtest_less : Z -> Z -> float -> result float.

(** The f-string of the interpretation. *)
Variable interpret : bool -> float -> float -> str.

Record CtrTest : Type := mkCtrTest {
  observed_ctr : float;
  p_value : float;
  significant : bool;
  interpretation : str
}.

(** [site_ctr_test(clicks, impressions, target_ctr, alpha)] *)
Definition site_ctr_test (clicks impressions : Z) (target_ctr alpha : float)
  : result CtrTest :=
  if impressions <=? 0 then Raise ValueError
  else if negb ((0 <=? clicks) && (clicks <=? impressions)) then
    Raise ValueError
  else
    pvalue <- binomtest_less clicks impressions target_ctr ;;
    ctr <- int_truediv clicks impressions ;;
    let sig := float_lt pvalue alpha in
    Ok (mkCtrTest ctr pvalue sig (interpret sig target_ctr pvalue)).

End BinomialTest.

(* ================================================================= *)
(** ** Vocabulary for these functions *)

(** The window of a panning frame: full extent across the pan axis, at
    offset [off] along it. *)
Definition sliding_box (sz : Z * Z) (w : PanWindow) (off : Z) : box :=
  let '(W, H) := sz in
  if vertical w then (0, off, W, off + crop_height w)
  else (off, 0, off + crop_width w, H).



(** A lower-case ASCII letter or a digit. *)
Definition is_slug_char (c : char) : bool :=
  ((48 <=? c) && (c <=? 57) || (97 <=? c) && (c <=? 122))%N.

(** [c] is a crop of [resized_img] of the size [ad], inside the image
    of size [new_size], at a position on the grid of [step_size]. *)
Definition crop_at (resized_img : Image) (new_size ad : Z * Z)
    (step_size : Z) (c : Image) : Prop :=
  exists x y,
    c = Crop (x, y, x + fst ad, y + snd ad) resized_img /\
    0 <= x /\ x + fst ad <= fst new_size /\
    0 <= y /\ y + snd ad <= snd new_size /\
    x mod step_size = 0 /\ y mod step_size = 0.

(* ================================================================= *)
(** * Properties of the rounding *)

Section RoundingTheory.

Local Open Scope Q_scope.

(** ** Powers of two *)

Lemma pow2_pos e : 0 < pow2 e.
Proof. unfold pow2. apply Qpower_0_lt. reflexivity. Qed.

Lemma pow2_add a b : pow2 (a + b) == pow2 a * pow2 b.
Proof. unfold pow2. apply Qpower_plus. discriminate. Qed.

Lemma pow2_le a b : (a <= b)%Z -> pow2 a <= pow2 b.
Proof. intros. unfold pow2. apply Qpower_le_compat_l; [assumption | discriminate]. Qed.

Lemma pow2_lt a b : (a < b)%Z -> pow2 a < pow2 b.
Proof. intros. unfold pow2. apply Qpower_lt_compat_l; [assumption | reflexivity]. Qed.

Lemma pow2_lt_inv a b : pow2 a < pow2 b -> (a < b)%Z.
Proof. intros. unfold pow2 in *. eapply Qpower_lt_compat_l_inv; [eassumption | reflexivity]. Qed.

Lemma pow2_Z e : (0 <= e)%Z -> pow2 e == inject_Z (2 ^ e).
Proof. intros. unfold pow2. rewrite Zpower_Qpower by assumption. reflexivity. Qed.

Lemma pow2_succ e : pow2 (e + 1) == 2 * pow2 e.
Proof. rewrite pow2_add. unfold pow2 at 2. simpl. ring. Qed.

Lemma pow2_sub a b : pow2 (a - b) * pow2 b == pow2 a.
Proof. rewrite <- pow2_add. replace (a - b + b)%Z with a by ring. reflexivity. Qed.

Lemma Qdiv_pow2 x e : x / pow2 e == x * pow2 (- e).
Proof.
  unfold Qdiv. apply Qmult_comp; [reflexivity|].
  unfold pow2. rewrite Qpower_opp. reflexivity.
Qed.

(** ** The binary logarithm *)

Lemma Q_as_ratio (x : Q) : x * inject_Z (Zpos (Qden x)) == inject_Z (Qnum x).
Proof.
  destruct x as [n d]. unfold Qeq, Qmult, inject_Z. simpl. 
  rewrite Pos.mul_1_r. ring.
Qed.

Lemma ilog2_ratio_spec n d :
  (0 < n)%Z -> (0 < d)%Z ->
  pow2 (ilog2_ratio n d) * inject_Z d <= inject_Z n /\
  inject_Z n < pow2 (ilog2_ratio n d + 1) * inject_Z d.
Proof.
  intros Hn Hd.
  pose proof (Z.log2_spec n Hn) as [Hn1 Hn2].
  pose proof (Z.log2_spec d Hd) as [Hd1 Hd2].
  pose proof (Z.log2_nonneg n) as Ha. pose proof (Z.log2_nonneg d) as Hb.
  unfold ilog2_ratio.
  set (a := Z.log2 n) in *. set (b := Z.log2 d) in *.
  assert (HA : pow2 a <= inject_Z n /\ inject_Z n < 2 * pow2 a).
  { rewrite <- pow2_succ. rewrite !pow2_Z by lia. rewrite <- Zle_Qle, <- Zlt_Qlt.
    replace (a + 1)%Z with (Z.succ a) by lia. lia. }
  assert (HB : pow2 b <= inject_Z d /\ inject_Z d < 2 * pow2 b).
  { rewrite <- pow2_succ. rewrite !pow2_Z by lia. rewrite <- Zle_Qle, <- Zlt_Qlt.
    replace (b + 1)%Z with (Z.succ b) by lia. lia. }
  pose proof (pow2_sub a b) as HL.
  pose proof (pow2_pos (a - b)) as HLpos.
  pose proof (pow2_pos b) as HBpos.
  destruct (Z.leb_spec 0 (a - b)) as [Hl | Hl].
  - assert (Ht : inject_Z (d * 2 ^ (a - b)) == pow2 (a - b) * inject_Z d).
    { rewrite inject_Z_mult, pow2_Z by lia. ring. }
    destruct (Z.leb_spec (d * 2 ^ (a - b)) n) as [T | T].
    + rewrite Zle_Qle, Ht in T. split; [exact T|].
      rewrite pow2_succ. nra.
    + rewrite Zlt_Qlt, Ht in T.
      replace (a - b - 1 + 1)%Z with (a - b)%Z by ring. split; [|exact T].
      pose proof (pow2_succ (a - b - 1)) as E.
      replace (a - b - 1 + 1)%Z with (a - b)%Z in E by ring. nra.
  - assert (Ht : inject_Z (n * 2 ^ (- (a - b))) * pow2 (a - b) == inject_Z n).
    { rewrite inject_Z_mult, <- pow2_Z by lia. rewrite <- Qmult_assoc, <- pow2_add.
      replace (- (a - b) + (a - b))%Z with 0%Z by ring. unfold pow2; simpl; ring. }
    destruct (Z.leb_spec d (n * 2 ^ (- (a - b)))) as [T | T].
    + rewrite Zle_Qle in T. split; [nra|].
      rewrite pow2_succ. nra.
    + rewrite Zlt_Qlt in T.
      replace (a - b - 1 + 1)%Z with (a - b)%Z by ring. split; [|nra].
      pose proof (pow2_succ (a - b - 1)) as E.
      replace (a - b - 1 + 1)%Z with (a - b)%Z in E by ring. nra.
Qed.

Lemma Qlog2_spec x : 0 < x -> pow2 (Qlog2 x) <= x /\ x < pow2 (Qlog2 x + 1).
Proof.
  intros Hx. unfold Qlog2.
  assert (Hn : (0 < Qnum x)%Z).
  { destruct x as [n d]. unfold Qlt in Hx. simpl in *. lia. }
  pose proof (ilog2_ratio_spec (Qnum x) (Zpos (Qden x)) Hn eq_refl) as [H1 H2].
  pose proof (Q_as_ratio x) as E.
  assert (Hd : 0 < inject_Z (Zpos (Qden x))) by reflexivity.
  set (l := ilog2_ratio _ _) in *.
  rewrite <- E in H1, H2.
  split.
  - apply Qmult_le_r in H1; assumption.
  - apply Qmult_lt_r in H2; assumption.
Qed.

Lemma Qlog2_unique x l : pow2 l <= x -> x < pow2 (l + 1) -> Qlog2 x = l.
Proof.
  intros H1 H2.
  assert (Hx : 0 < x) by (pose proof (pow2_pos l); lra).
  destruct (Qlog2_spec x Hx) as [S1 S2].
  assert (l < Qlog2 x + 1)%Z by (apply pow2_lt_inv; lra).
  assert (Qlog2 x < l + 1)%Z by (apply pow2_lt_inv; lra).
  lia.
Qed.

Lemma Qlog2_mono x y : 0 < x -> x <= y -> (Qlog2 x <= Qlog2 y)%Z.
Proof.
  intros Hx Hxy.
  destruct (Qlog2_spec x Hx) as [S1 _].
  destruct (Qlog2_spec y ltac:(lra)) as [_ S2].
  assert (Qlog2 x < Qlog2 y + 1)%Z by (apply pow2_lt_inv; lra).
  lia.
Qed.

(** ** Nearest-even on integers *)

Lemma Qfloor_bounds x : inject_Z (Qfloor x) <= x /\ x < inject_Z (Qfloor x) + 1.
Proof.
  split; [apply Qfloor_le|].
  pose proof (Qlt_floor x) as H. rewrite inject_Z_plus in H. exact H.
Qed.

Lemma Qfloor_unique x n : inject_Z n <= x -> x < inject_Z n + 1 -> Qfloor x = n.
Proof.
  intros H1 H2. destruct (Qfloor_bounds x) as [F1 F2].
  assert (n < Qfloor x + 1)%Z.
  { rewrite Zlt_Qlt, inject_Z_plus. change (inject_Z 1) with 1. lra. }
  assert (Qfloor x < n + 1)%Z.
  { rewrite Zlt_Qlt, inject_Z_plus. change (inject_Z 1) with 1. lra. }
  lia.
Qed.

Lemma rne_bounds x :
  (Qfloor x <= rne x <= Qfloor x + 1)%Z /\
  (x - inject_Z (Qfloor x) < 1 # 2 -> rne x = Qfloor x) /\
  (1 # 2 < x - inject_Z (Qfloor x) -> rne x = (Qfloor x + 1)%Z).
Proof.
  unfold rne.
  destruct (Qcompare_spec (x - inject_Z (Qfloor x)) (1 # 2)) as [E | L | G].
  - split; [destruct (Z.even (Qfloor x)); lia|]. split; intros; lra.
  - split; [lia|]. split; intros; [reflexivity | lra].
  - split; [lia|]. split; intros; [lra | reflexivity].
Qed.

Lemma rne_Z n : rne (inject_Z n) = n.
Proof.
  destruct (rne_bounds (inject_Z n)) as (_ & H & _).
  rewrite Qfloor_Z in H. apply H. lra.
Qed.

Lemma rne_mono x y : x <= y -> (rne x <= rne y)%Z.
Proof.
  intros Hxy.
  pose proof (Qfloor_resp_le x y Hxy) as Hf.
  destruct (rne_bounds x) as (Bx & Lx & Gx).
  destruct (rne_bounds y) as (By & Ly & Gy).
  destruct (Z.eq_dec (Qfloor x) (Qfloor y)) as [E | NE]; [|lia].
  unfold rne in *. clear Lx Gx Ly Gy. rewrite <- E in *.
  destruct (Qcompare_spec (x - inject_Z (Qfloor x)) (1 # 2));
    destruct (Qcompare_spec (y - inject_Z (Qfloor x)) (1 # 2));
    try lia; try lra; destruct (Z.even (Qfloor x)); try lia; lra.
Qed.

Lemma rne_le_Z x n : x <= inject_Z n -> (rne x <= n)%Z.
Proof. intros H. rewrite <- (rne_Z n). apply rne_mono, H. Qed.

Lemma rne_ge_Z x n : inject_Z n <= x -> (n <= rne x)%Z.
Proof. intros H. rewrite <- (rne_Z n). apply rne_mono, H. Qed.

(** ** [round_pos] *)

Lemma round_pos_eq x :
  round_pos x == inject_Z (rne (x / pow2 (ulp_exp x))) * pow2 (ulp_exp x).
Proof. unfold round_pos. apply Qred_correct. Qed.

Lemma ulp_exp_mono x y : 0 < x -> x <= y -> (ulp_exp x <= ulp_exp y)%Z.
Proof.
  intros Hx Hxy. unfold ulp_exp. pose proof (Qlog2_mono x y Hx Hxy). lia.
Qed.

Lemma scale_to_Z m k e :
  (e <= k)%Z -> inject_Z m * pow2 k / pow2 e == inject_Z (m * 2 ^ (k - e)).
Proof.
  intros H. rewrite inject_Z_mult, <- pow2_Z by lia.
  rewrite <- (pow2_sub k e). pose proof (pow2_pos e). field. lra.
Qed.

Lemma round_pos_le_grid x m k :
  x <= inject_Z m * pow2 k -> (ulp_exp x <= k)%Z ->
  round_pos x <= inject_Z m * pow2 k.
Proof.
  intros Hx He. rewrite round_pos_eq.
  set (e := ulp_exp x) in *. pose proof (pow2_pos e) as Hp.
  assert (H : (rne (x / pow2 e) <= m * 2 ^ (k - e))%Z).
  { apply rne_le_Z. rewrite <- scale_to_Z by assumption.
    unfold Qdiv. apply Qmult_le_compat_r; [assumption|].
    apply Qlt_le_weak, Qinv_lt_0_compat, Hp. }
  rewrite Zle_Qle in H. rewrite <- scale_to_Z in H by assumption.
  assert (E : inject_Z m * pow2 k / pow2 e * pow2 e == inject_Z m * pow2 k)
    by (field; lra).
  rewrite <- E. apply Qmult_le_compat_r; [exact H | lra].
Qed.

Lemma round_pos_ge_grid x m k :
  inject_Z m * pow2 k <= x -> (ulp_exp x <= k)%Z ->
  inject_Z m * pow2 k <= round_pos x.
Proof.
  intros Hx He. rewrite round_pos_eq.
  set (e := ulp_exp x) in *. pose proof (pow2_pos e) as Hp.
  assert (H : (m * 2 ^ (k - e) <= rne (x / pow2 e))%Z).
  { apply rne_ge_Z. rewrite <- scale_to_Z by assumption.
    unfold Qdiv. apply Qmult_le_compat_r; [assumption|].
    apply Qlt_le_weak, Qinv_lt_0_compat, Hp. }
  rewrite Zle_Qle in H. rewrite <- scale_to_Z in H by assumption.
  assert (E : inject_Z m * pow2 k / pow2 e * pow2 e == inject_Z m * pow2 k)
    by (field; lra).
  rewrite <- E. apply Qmult_le_compat_r; [exact H | lra].
Qed.

Lemma round_pos_mono x y : 0 < x -> x <= y -> round_pos x <= round_pos y.
Proof.
  intros Hx Hxy.
  pose proof (ulp_exp_mono x y Hx Hxy) as He.
  destruct (Z.eq_dec (ulp_exp x) (ulp_exp y)) as [E | NE].
  - rewrite !round_pos_eq, E.
    pose proof (pow2_pos (ulp_exp y)) as Hp.
    apply Qmult_le_compat_r; [|lra].
    rewrite <- Zle_Qle. apply rne_mono.
    unfold Qdiv. apply Qmult_le_compat_r; [assumption|].
    apply Qlt_le_weak, Qinv_lt_0_compat, Hp.
  - assert (Hy : 0 < y) by lra.
    destruct (Qlog2_spec x Hx) as [_ X2].
    destruct (Qlog2_spec y Hy) as [Y1 _].
    unfold ulp_exp in *.
    set (lx := Qlog2 x) in *. set (ly := Qlog2 y) in *.
    assert (Hl : (lx + 1 <= ly)%Z) by lia.
    pose proof (pow2_le _ _ Hl) as Hp.
    apply Qle_trans with (inject_Z 1 * pow2 ly).
    + apply round_pos_le_grid; [change (inject_Z 1) with 1; lra|].
      unfold ulp_exp. fold lx. unfold prec, emin in *. lia.
    + apply round_pos_ge_grid; [change (inject_Z 1) with 1; lra|].
      unfold ulp_exp. fold ly. unfold prec, emin in *. lia.
Qed.

(** ** Representable values are fixed points *)

Lemma ulp_exp_grid t m k :
  0 < t -> (0 <= m < 2 ^ 53)%Z -> (emin <= k)%Z -> t == inject_Z m * pow2 k ->
  (ulp_exp t <= k)%Z.
Proof.
  intros Ht Hm Hk E.
  destruct (Qlog2_spec t Ht) as [L1 _].
  assert (B : t < pow2 (53 + k)).
  { rewrite E, pow2_add, (pow2_Z 53) by lia. pose proof (pow2_pos k).
    apply Qmult_lt_compat_r; [assumption|]. rewrite <- Zlt_Qlt. lia. }
  assert (Qlog2 t < 53 + k)%Z by (apply pow2_lt_inv; lra).
  unfold ulp_exp, prec. lia.
Qed.

Lemma round_pos_fix t : 0 < t -> representable t -> round_pos t == t.
Proof.
  intros Ht (m & k & Hm & Hk & E).
  pose proof (ulp_exp_grid t m k Ht Hm Hk E) as He.
  apply Qle_antisym.
  - rewrite E at 2. apply round_pos_le_grid; [rewrite E; apply Qle_refl | exact He].
  - rewrite E at 1. apply round_pos_ge_grid; [rewrite E; apply Qle_refl | exact He].
Qed.

Lemma round_pos_nonneg x : 0 < x -> 0 <= round_pos x.
Proof.
  intros Hx.
  assert (H : inject_Z 0 * pow2 (ulp_exp x) <= round_pos x).
  { apply round_pos_ge_grid; [|lia]. change (inject_Z 0) with 0. lra. }
  change (inject_Z 0) with 0 in H. lra.
Qed.

Lemma round_pos_repr x : 0 < x -> representable (round_pos x).
Proof.
  intros Hx.
  destruct (Qlog2_spec x Hx) as [_ L2].
  set (e := ulp_exp x). pose proof (pow2_pos e) as Hp.
  assert (He : (Qlog2 x + 1 <= 53 + e)%Z /\ (emin <= e)%Z)
    by (unfold e, ulp_exp, prec; lia).
  set (m := rne (x / pow2 e)).
  assert (Hm0 : (0 <= m)%Z).
  { apply rne_ge_Z. change (inject_Z 0) with 0.
    apply Qlt_le_weak, Qlt_shift_div_l; lra. }
  assert (Hm1 : (m <= 2 ^ 53)%Z).
  { apply rne_le_Z. rewrite <- pow2_Z by lia.
    apply Qle_shift_div_r; [assumption|]. rewrite <- pow2_add.
    pose proof (pow2_le (Qlog2 x + 1) (53 + e) (proj1 He)). lra. }
  destruct (Z.eq_dec m (2 ^ 53)) as [E | NE].
  - exists (2 ^ 52)%Z, (e + 1)%Z. split; [lia|]. split; [lia|].
    rewrite round_pos_eq. fold e. fold m. rewrite E, pow2_succ.
    change (inject_Z (2 ^ 53)) with (2 * inject_Z (2 ^ 52)). ring.
  - exists m, e. split; [lia|]. split; [lia|]. apply round_pos_eq.
Qed.

(** ** [round] on non-negative rationals *)

Lemma round_of_pos x : 0 < x -> round x = round_pos x.
Proof.
  intros Hx. unfold round.
  destruct (Qcompare_spec x 0) as [E | L | G]; [lra | lra | reflexivity].
Qed.

Lemma round_of_zero x : x == 0 -> round x = 0.
Proof.
  intros Hx. unfold round.
  destruct (Qcompare_spec x 0) as [E | L | G]; [reflexivity | lra | lra].
Qed.

Lemma round_nonneg x : 0 <= x -> 0 <= round x.
Proof.
  intros Hx. destruct (Qlt_le_dec 0 x) as [P | NP].
  - rewrite round_of_pos by assumption. apply round_pos_nonneg, P.
  - rewrite round_of_zero by lra. lra.
Qed.

Lemma round_mono x y : 0 <= x -> x <= y -> round x <= round y.
Proof.
  intros Hx Hxy. destruct (Qlt_le_dec 0 x) as [P | NP].
  - rewrite !round_of_pos by lra. apply round_pos_mono; assumption.
  - rewrite (round_of_zero x) by lra. apply round_nonneg. lra.
Qed.

Lemma round_comp x y : 0 <= x -> x == y -> round x == round y.
Proof.
  intros Hx E. apply Qle_antisym; apply round_mono; lra.
Qed.

Lemma round_fix t : 0 <= t -> representable t -> round t == t.
Proof.
  intros Ht R. destruct (Qlt_le_dec 0 t) as [P | NP].
  - rewrite round_of_pos by assumption. apply round_pos_fix; assumption.
  - rewrite round_of_zero by lra. lra.
Qed.

Lemma representable_0 : representable 0.
Proof. exists 0%Z, 0%Z. split; [lia|]. split; [unfold emin; lia|]. reflexivity. Qed.

Lemma representable_comp t u : t == u -> representable t -> representable u.
Proof. intros E (m & k & Hm & Hk & Et). exists m, k. rewrite <- E. auto. Qed.

Lemma round_repr x : 0 <= x -> representable (round x).
Proof.
  intros Hx. destruct (Qlt_le_dec 0 x) as [P | NP].
  - rewrite round_of_pos by assumption. apply round_pos_repr, P.
  - rewrite round_of_zero by lra. apply representable_0.
Qed.

Lemma representable_Z n : (0 <= n < 2 ^ 53)%Z -> representable (inject_Z n).
Proof.
  intros Hn. exists n, 0%Z. split; [assumption|]. split; [unfold emin; lia|].
  unfold pow2. simpl. ring.
Qed.

Lemma round_Z n : (0 <= n < 2 ^ 53)%Z -> round (inject_Z n) == inject_Z n.
Proof.
  intros Hn. apply round_fix; [|apply representable_Z, Hn].
  change 0 with (inject_Z 0). rewrite <- Zle_Qle. lia.
Qed.

(** Rounding never crosses a representable value. *)
Lemma round_le_repr x t : 0 <= x -> x <= t -> representable t -> round x <= t.
Proof.
  intros Hx Hxt R. rewrite <- (round_fix t) by (assumption || lra).
  apply round_mono; assumption.
Qed.

Lemma round_ge_repr x t : 0 <= t -> t <= x -> representable t -> t <= round x.
Proof.
  intros Ht Htx R. rewrite <- (round_fix t) by assumption.
  apply round_mono; assumption.
Qed.

(** ** Overflow and truncation *)

Lemma overflows_false y : 0 <= y -> y < pow2 emax -> overflows y = false.
Proof.
  intros H0 H1. unfold overflows.
  destruct (Qle_bool (pow2 emax) (Qabs y)) eqn:E; [|reflexivity].
  apply Qle_bool_imp_le in E. rewrite Qabs_pos in E by assumption. lra.
Qed.

Lemma overflows_true_iff y : 0 <= y -> (overflows y = true <-> pow2 emax <= y).
Proof.
  intros H0. unfold overflows. rewrite Qle_bool_iff, Qabs_pos by assumption.
  reflexivity.
Qed.

Lemma Z_below_emax n : (n < 2 ^ 53)%Z -> inject_Z n < pow2 emax.
Proof.
  intros Hn. apply Qlt_le_trans with (pow2 53).
  - rewrite pow2_Z by lia. rewrite <- Zlt_Qlt. exact Hn.
  - apply pow2_le. unfold emax. lia.
Qed.

Lemma Qtrunc_nonneg q : 0 <= q -> Qtrunc q = Qfloor q.
Proof.
  intros Hq. unfold Qtrunc, Qneg.
  destruct (Qcompare_spec q 0); try reflexivity. lra.
Qed.

Lemma Qfloor_nonneg q : 0 <= q -> (0 <= Qfloor q)%Z.
Proof. intros Hq. rewrite <- (Qfloor_Z 0). apply Qfloor_resp_le, Hq. Qed.

Lemma Qfloor_le_Z q n : q <= inject_Z n -> (Qfloor q <= n)%Z.
Proof. intros Hq. rewrite <- (Qfloor_Z n). apply Qfloor_resp_le, Hq. Qed.

Lemma Qfloor_ge_Z q n : inject_Z n <= q -> (n <= Qfloor q)%Z.
Proof. intros Hq. rewrite <- (Qfloor_Z n). apply Qfloor_resp_le, Hq. Qed.

Lemma inject_Z_pos n : (0 < n)%Z -> 0 < inject_Z n.
Proof. intros. change 0 with (inject_Z 0). rewrite <- Zlt_Qlt. assumption. Qed.

Lemma inject_Z_nonneg n : (0 <= n)%Z -> 0 <= inject_Z n.
Proof. intros. change 0 with (inject_Z 0). rewrite <- Zle_Qle. assumption. Qed.

Lemma INT_MAX_small : (INT_MAX < 2 ^ 53)%Z.
Proof. reflexivity. Qed.

(** ** Evaluation of the float operations on non-negative operands *)

Lemma int_truediv_eval a b :
  b <> 0%Z ->
  int_truediv a b =
    if overflows (round (inject_Z a / inject_Z b)) then Raise OverflowError
    else Ok (Fin (round (inject_Z a / inject_Z b))).
Proof.
  intros Hb. unfold int_truediv. destruct (Z.eqb_spec b 0); [contradiction | reflexivity].
Qed.

Lemma float_of_int_eval n :
  (0 <= n < 2 ^ 53)%Z -> float_of_int n = Ok (Fin (round (inject_Z n))).
Proof.
  intros Hn. unfold float_of_int. rewrite overflows_false; [reflexivity | |].
  - apply round_nonneg, inject_Z_nonneg. lia.
  - rewrite round_Z by assumption. apply Z_below_emax. lia.
Qed.

Lemma int_mul_float_eval n t :
  (0 <= n < 2 ^ 53)%Z ->
  int_mul_float n (Fin t) = Ok (ieee (round (inject_Z n) * t)).
Proof. intros Hn. unfold int_mul_float. rewrite float_of_int_eval by assumption. reflexivity. Qed.

Lemma Qzero_false t : ~ t == 0 -> Qzero t = false.
Proof. intros H. unfold Qzero. destruct (Qcompare_spec t 0); try reflexivity. contradiction. Qed.

Lemma Qzero_true t : t == 0 -> Qzero t = true.
Proof. intros H. unfold Qzero. destruct (Qcompare_spec t 0); try reflexivity; lra. Qed.

Lemma int_div_float_eval n t :
  (0 <= n < 2 ^ 53)%Z -> ~ t == 0 ->
  int_div_float n (Fin t) = Ok (ieee (round (inject_Z n) / t)).
Proof.
  intros Hn Ht. unfold int_div_float. rewrite float_of_int_eval by assumption.
  simpl. rewrite Qzero_false by assumption. reflexivity.
Qed.

(** An exact value at most a small integer is rounded to a finite float
    whose truncation is at most that integer. *)
Lemma ieee_below x N :
  0 <= x -> x <= inject_Z N -> (N < 2 ^ 53)%Z ->
  ieee x = Fin (round x) /\ 0 <= round x <= inject_Z N.
Proof.
  intros H0 H1 HN.
  assert (HN0 : (0 <= N)%Z) by (rewrite Zle_Qle; change (inject_Z 0) with 0; lra).
  assert (R : round x <= inject_Z N).
  { apply round_le_repr; [assumption | assumption | apply representable_Z; lia]. }
  pose proof (round_nonneg x H0) as R0.
  split; [|split; assumption].
  unfold ieee. rewrite overflows_false; [reflexivity | assumption |].
  pose proof (Z_below_emax N HN). lra.
Qed.

Lemma int_of_float_nonneg q : 0 <= q -> int_of_float (Fin q) = Ok (Qfloor q).
Proof. intros H. simpl. rewrite Qtrunc_nonneg by assumption. reflexivity. Qed.

Lemma float_lt_Fin p q : float_lt (Fin p) (Fin q) = true <-> p < q.
Proof.
  simpl. destruct (Qcompare_spec p q); split; intros; try discriminate; try reflexivity; lra.
Qed.

Lemma float_lt_Fin_false p q : float_lt (Fin p) (Fin q) = false <-> q <= p.
Proof.
  simpl. destruct (Qcompare_spec p q); split; intros; try discriminate; try reflexivity; lra.
Qed.

(** ** The aspect comparisons bound the scaled extents *)

Section Aspect.
Variables (W H : Z) (ta : Q).
Hypothesis HW : (0 < W < 2 ^ 53)%Z.
Hypothesis HH : (0 < H < 2 ^ 53)%Z.
Hypothesis Hta : 0 <= ta.
Hypothesis Rta : representable ta.

Let QW := inject_Z_pos W (proj1 HW).
Let QH := inject_Z_pos H (proj1 HH).

Lemma wider_scaled_width_fits :
  ta < round (inject_Z W / inject_Z H) -> inject_Z H * ta <= inject_Z W.
Proof.
  intros Hgt. pose proof QW. pose proof QH.
  destruct (Qlt_le_dec (inject_Z W) (inject_Z H * ta)) as [C | C]; [|exact C].
  exfalso.
  assert (D : inject_Z W / inject_Z H <= ta).
  { apply Qle_shift_div_r; [assumption|]. lra. }
  assert (0 <= inject_Z W / inject_Z H).
  { apply Qle_shift_div_l; [assumption|]. lra. }
  pose proof (round_le_repr _ _ H2 D Rta). lra.
Qed.

Lemma taller_scaled_height_fits :
  round (inject_Z W / inject_Z H) < ta -> inject_Z W / ta <= inject_Z H.
Proof.
  intros Hlt. pose proof QW. pose proof QH.
  assert (0 <= inject_Z W / inject_Z H).
  { apply Qle_shift_div_l; [assumption|]. lra. }
  pose proof (round_nonneg _ H2) as Hc.
  assert (Tpos : 0 < ta) by lra.
  destruct (Qlt_le_dec (inject_Z H) (inject_Z W / ta)) as [C | C]; [|exact C].
  exfalso.
  assert (D : ta <= inject_Z W / inject_Z H).
  { apply Qle_shift_div_l; [assumption|].
    assert (E : inject_Z W / ta * ta == inject_Z W) by (field; lra).
    assert (L : inject_Z H * ta < inject_Z W / ta * ta)
      by (apply Qmult_lt_compat_r; assumption).
    lra. }
  pose proof (round_ge_repr _ _ Hta D Rta). lra.
Qed.

(** [int(W / ta) > H] forces [H * ta <= W]. *)
Lemma div_exceeds_mul_fits :
  0 < ta -> (H < Qfloor (round (inject_Z W / ta)))%Z ->
  inject_Z H * ta <= inject_Z W.
Proof.
  intros Tpos Hgt. pose proof QW. pose proof QH.
  destruct (Qlt_le_dec (inject_Z W) (inject_Z H * ta)) as [C | C]; [|exact C].
  exfalso.
  assert (D : inject_Z W / ta <= inject_Z H).
  { apply Qle_shift_div_r; [assumption|]. lra. }
  assert (0 <= inject_Z W / ta).
  { apply Qle_shift_div_l; [assumption|]. lra. }
  pose proof (round_le_repr _ _ H2 D (representable_Z H ltac:(lia))) as R.
  apply Qfloor_le_Z in R. lia.
Qed.

(** [int(H * ta) > W] forces [W / ta <= H]. *)
Lemma mul_exceeds_div_fits :
  (W < Qfloor (round (inject_Z H * ta)))%Z ->
  0 < ta /\ inject_Z W / ta <= inject_Z H.
Proof.
  intros Hgt. pose proof QW. pose proof QH.
  assert (Tpos : 0 < ta).
  { destruct (Qlt_le_dec 0 ta) as [P | NP]; [exact P | exfalso].
    assert (T0 : ta == 0) by lra.
    assert (E : inject_Z H * ta == 0) by (rewrite T0; ring).
    rewrite (round_of_zero _ E) in Hgt. change (Qfloor 0) with 0%Z in Hgt. lia. }
  split; [exact Tpos|].
  apply Qle_shift_div_r; [assumption|].
  destruct (Qlt_le_dec (inject_Z H * ta) (inject_Z W)) as [C | C]; [exfalso | lra].
  assert (0 <= inject_Z H * ta) by (apply Qmult_le_0_compat; lra).
  pose proof (round_le_repr _ _ H2 (Qlt_le_weak _ _ C) (representable_Z W ltac:(lia))) as R.
  apply Qfloor_le_Z in R. lia.
Qed.

End Aspect.

End RoundingTheory.

(* ================================================================= *)
(** * The crop windows *)

Lemma valid_size_small W H :
  valid_size (W, H) -> 0 < W < 2 ^ 53 /\ 0 < H < 2 ^ 53.
Proof.
  unfold valid_size. simpl. pose proof INT_MAX_small. lia.
Qed.

(** The aspect ratio of a positive target, when it does not overflow. *)
Lemma target_aspect_inv tw th x :
  0 < tw -> 0 < th -> int_truediv tw th = Ok x ->
  exists ta, x = Fin ta /\ (0 <= ta)%Q /\ representable ta /\
             (ta == round (inject_Z tw / inject_Z th))%Q.
Proof.
  intros Htw Hth E. rewrite int_truediv_eval in E by lia.
  destruct (overflows _); [discriminate|]. inversion E; subst x; clear E.
  assert (P : (0 <= inject_Z tw / inject_Z th)%Q).
  { apply Qle_shift_div_l; [apply inject_Z_pos; lia|].
    pose proof (inject_Z_pos tw Htw). lra. }
  eexists. split; [reflexivity|]. split; [apply round_nonneg, P|].
  split; [apply round_repr, P | reflexivity].
Qed.

(** The aspect ratio of a valid image never overflows. *)
Lemma current_aspect_eval W H :
  0 < W < 2 ^ 53 -> 0 < H ->
  int_truediv W H = Ok (Fin (round (inject_Z W / inject_Z H))).
Proof.
  intros HW HH. rewrite int_truediv_eval by lia.
  pose proof (inject_Z_pos W (proj1 HW)) as QW.
  pose proof (inject_Z_pos H HH) as QH.
  assert (P : (0 <= inject_Z W / inject_Z H)%Q).
  { apply Qle_shift_div_l; [assumption|]. lra. }
  assert (B : (inject_Z W / inject_Z H <= inject_Z W)%Q).
  { apply Qle_shift_div_r; [assumption|].
    assert (1 <= inject_Z H)%Q by (change 1%Q with (inject_Z 1); rewrite <- Zle_Qle; lia).
    nra. }
  destruct (ieee_below _ W P B ltac:(lia)) as [_ [R0 R1]].
  rewrite overflows_false; [reflexivity | assumption |].
  pose proof (Z_below_emax W ltac:(lia)). lra.
Qed.

(** [int(n * ta)] when the exact product is at most a small [N]. *)
Lemma scaled_mul_eval n ta N :
  0 <= n < 2 ^ 53 -> (0 <= ta)%Q -> N < 2 ^ 53 ->
  (inject_Z n * ta <= inject_Z N)%Q ->
  exists z, (s <- int_mul_float n (Fin ta) ;; int_of_float s) = Ok z /\
            z = Qfloor (round (inject_Z n * ta)) /\ 0 <= z <= N.
Proof.
  intros Hn Hta HN Hle.
  rewrite int_mul_float_eval by assumption.
  pose proof (round_Z n Hn) as En.
  pose proof (inject_Z_nonneg n (proj1 Hn)) as Qn.
  assert (P : (0 <= round (inject_Z n) * ta)%Q).
  { apply Qmult_le_0_compat; [rewrite En|]; assumption. }
  assert (B : (round (inject_Z n) * ta <= inject_Z N)%Q) by (rewrite En; exact Hle).
  destruct (ieee_below _ N P B HN) as [I [R0 R1]].
  unfold bind. rewrite I, int_of_float_nonneg by assumption.
  eexists. split; [reflexivity|]. split.
  - apply Qfloor_comp, round_comp; [assumption | rewrite En; reflexivity].
  - split; [apply Qfloor_nonneg, R0 | apply Qfloor_le_Z, R1].
Qed.

(** [int(n / ta)] when the exact quotient is at most a small [N]. *)
Lemma scaled_div_eval n ta N :
  0 <= n < 2 ^ 53 -> (0 < ta)%Q -> N < 2 ^ 53 ->
  (inject_Z n / ta <= inject_Z N)%Q ->
  exists z, (s <- int_div_float n (Fin ta) ;; int_of_float s) = Ok z /\
            z = Qfloor (round (inject_Z n / ta)) /\ 0 <= z <= N.
Proof.
  intros Hn Hta HN Hle.
  rewrite int_div_float_eval by (assumption || lra).
  pose proof (round_Z n Hn) as En.
  pose proof (inject_Z_nonneg n (proj1 Hn)) as Qn.
  assert (P : (0 <= round (inject_Z n) / ta)%Q).
  { apply Qle_shift_div_l; [assumption|]. rewrite En. lra. }
  assert (B : (round (inject_Z n) / ta <= inject_Z N)%Q) by (rewrite En; exact Hle).
  destruct (ieee_below _ N P B HN) as [I [R0 R1]].
  unfold bind. rewrite I, int_of_float_nonneg by assumption.
  eexists. split; [reflexivity|]. split.
  - apply Qfloor_comp, round_comp; [assumption | rewrite En; reflexivity].
  - split; [apply Qfloor_nonneg, R0 | apply Qfloor_le_Z, R1].
Qed.

Lemma centered_offset ext win :
  0 <= win <= ext -> 0 <= (ext - win) / 2 /\ (ext - win) / 2 + win <= ext.
Proof.
  intros Hw. split.
  - apply Z.div_pos; lia.
  - assert ((ext - win) / 2 <= ext - win) by (apply Z.div_le_upper_bound; lia). lia.
Qed.

Lemma crop_and_resize_raises image tw th e :
  int_truediv tw th = Raise e ->
  crop_and_resize_to_ad_size image tw th = Raise e.
Proof.
  intros E. unfold crop_and_resize_to_ad_size.
  destruct (size image) as [W H]. rewrite E. reflexivity.
Qed.

Lemma crop_and_resize_spec image W H tw th x :
  size image = (W, H) -> valid_size (W, H) -> 0 < tw -> 0 < th ->
  int_truediv tw th = Ok x ->
  exists cropped,
    crop_and_resize_to_ad_size image tw th = Ok (Resize (tw, th) cropped) /\
    (cropped = image \/
     exists b, cropped = Crop b image /\ box_within b (W, H)).
Proof.
  intros Hsz Hv Htw Hth Hx.
  destruct (valid_size_small W H Hv) as [HW HH].
  destruct (target_aspect_inv tw th x Htw Hth Hx) as (ta & -> & Ta0 & TaR & _).
  unfold crop_and_resize_to_ad_size. rewrite Hsz, Hx.
  rewrite (current_aspect_eval W H) by lia.
  unfold bind at 1 2. unfold float_gt.
  destruct (float_lt (Fin ta) _) eqn:Cgt.
  - apply float_lt_Fin in Cgt.
    pose proof (wider_scaled_width_fits W H ta HW HH TaR Cgt) as Fit.
    destruct (scaled_mul_eval H ta W ltac:(lia) Ta0 ltac:(lia) Fit)
      as (nw & Ev & _ & Hnw).
    unfold bind in Ev |- *.
    destruct (int_mul_float H (Fin ta)) as [s|]; [|discriminate].
    rewrite Ev. eexists. split; [reflexivity|]. right.
    eexists. split; [reflexivity|].
    pose proof (centered_offset W nw Hnw). unfold box_within; simpl. lia.
  - destruct (float_lt _ (Fin ta)) eqn:Clt.
    + apply float_lt_Fin in Clt.
      pose proof (taller_scaled_height_fits W H ta HW HH Ta0 TaR Clt) as Fit.
      assert (Tpos : (0 < ta)%Q).
      { assert (0 <= inject_Z W / inject_Z H)%Q.
        { pose proof (inject_Z_pos W (proj1 HW)). pose proof (inject_Z_pos H (proj1 HH)).
          apply Qle_shift_div_l; [assumption|]. lra. }
        pose proof (round_nonneg _ H0). lra. }
      destruct (scaled_div_eval W ta H ltac:(lia) Tpos ltac:(lia) Fit)
        as (nh & Ev & _ & Hnh).
      unfold bind in Ev |- *.
      destruct (int_div_float W (Fin ta)) as [s|]; [|discriminate].
      rewrite Ev. eexists. split; [reflexivity|]. right.
      eexists. split; [reflexivity|].
      pose proof (centered_offset H nh Hnh). unfold box_within; simpl. lia.
    + eexists. split; [reflexivity|]. left. reflexivity.
Qed.

Lemma pan_window_raises image tw th e :
  int_truediv tw th = Raise e -> pan_window image tw th = Raise e.
Proof.
  intros E. unfold pan_window.
  destruct (size image) as [W H]. rewrite E. reflexivity.
Qed.

Lemma landscape_aspect tw th :
  0 < th -> th < tw -> (1 <= round (inject_Z tw / inject_Z th))%Q.
Proof.
  intros Hth Hlt.
  pose proof (inject_Z_pos th Hth) as Qth.
  apply round_ge_repr; [lra | | apply (representable_Z 1); lia].
  apply Qle_shift_div_l; [assumption|].
  rewrite Qmult_1_l, <- Zle_Qle. lia.
Qed.

Lemma portrait_aspect tw th :
  0 < tw -> tw <= th -> (round (inject_Z tw / inject_Z th) <= 1)%Q.
Proof.
  intros Htw Hle.
  pose proof (inject_Z_pos tw Htw) as Qtw.
  assert (Qth : (0 < inject_Z th)%Q) by (apply inject_Z_pos; lia).
  apply round_le_repr; [| | apply (representable_Z 1); lia].
  - apply Qle_shift_div_l; [assumption|]. lra.
  - apply Qle_shift_div_r; [assumption|].
    rewrite Qmult_1_l, <- Zle_Qle. lia.
Qed.

Lemma pan_window_spec image W H tw th x :
  size image = (W, H) -> valid_size (W, H) -> 0 < tw -> 0 < th ->
  int_truediv tw th = Ok x ->
  exists w,
    pan_window image tw th = Ok w /\
    vertical w = (tw >? th) /\
    0 <= crop_width w <= W /\ 0 <= crop_height w <= H /\
    max_offset w = (if vertical w then H - crop_height w
                    else W - crop_width w).
Proof.
  intros Hsz Hv Htw Hth Hx.
  destruct (valid_size_small W H Hv) as [HW HH].
  pose proof (inject_Z_pos W (proj1 HW)) as QW.
  pose proof (inject_Z_pos H (proj1 HH)) as QH.
  destruct (target_aspect_inv tw th x Htw Hth Hx) as (ta & -> & Ta0 & TaR & Eta).
  unfold pan_window. rewrite Hsz, Hx. unfold bind at 1.
  destruct (Z.gtb_spec tw th) as [Land | Port].
  - (* landscape *)
    assert (T1 : (1 <= ta)%Q) by (rewrite Eta; apply landscape_aspect; lia).
    assert (Fit : (inject_Z W / ta <= inject_Z W)%Q).
    { apply Qle_shift_div_r; [lra | nra]. }
    destruct (scaled_div_eval W ta W ltac:(lia) ltac:(lra) ltac:(lia) Fit)
      as (ch & Ev & Ech & Hch).
    unfold bind in Ev.
    destruct (int_div_float W (Fin ta)) as [s|]; [|discriminate].
    unfold bind at 1 2. rewrite Ev.
    destruct (Z.gtb_spec ch H) as [Big | Small].
    + rewrite Ech in Big.
      pose proof (div_exceeds_mul_fits W H ta HW HH ltac:(lra) Big) as Fit2.
      destruct (scaled_mul_eval H ta W ltac:(lia) Ta0 ltac:(lia) Fit2)
        as (cw & Ev2 & _ & Hcw).
      unfold bind in Ev2.
      destruct (int_mul_float H (Fin ta)) as [s2|]; [|discriminate].
      unfold bind. rewrite Ev2.
      eexists. split; [reflexivity|]. simpl. repeat split; lia.
    + unfold bind. eexists. split; [reflexivity|]. simpl. repeat split; lia.
  - (* portrait or square *)
    assert (T1 : (ta <= 1)%Q) by (rewrite Eta; apply portrait_aspect; lia).
    assert (Fit : (inject_Z H * ta <= inject_Z H)%Q) by nra.
    destruct (scaled_mul_eval H ta H ltac:(lia) Ta0 ltac:(lia) Fit)
      as (cw & Ev & Ecw & Hcw).
    unfold bind in Ev.
    destruct (int_mul_float H (Fin ta)) as [s|]; [|discriminate].
    unfold bind at 1 2. rewrite Ev.
    destruct (Z.gtb_spec cw W) as [Big | Small].
    + rewrite Ecw in Big.
      destruct (mul_exceeds_div_fits W H ta HW HH Ta0 Big) as [Tpos Fit2].
      destruct (scaled_div_eval W ta H ltac:(lia) Tpos ltac:(lia) Fit2)
        as (ch & Ev2 & _ & Hch).
      unfold bind in Ev2.
      destruct (int_div_float W (Fin ta)) as [s2|]; [|discriminate].
      unfold bind. rewrite Ev2.
      eexists. split; [reflexivity|]. simpl. repeat split; lia.
    + unfold bind. eexists. split; [reflexivity|]. simpl. repeat split; lia.
Qed.

(** ** The pan offset *)

Lemma Qdiv_Z_le a b c :
  0 < b -> a <= c * b -> (inject_Z a / inject_Z b <= inject_Z c)%Q.
Proof.
  intros Hb H. apply Qle_shift_div_r; [apply inject_Z_pos, Hb|].
  rewrite <- inject_Z_mult, <- Zle_Qle. exact H.
Qed.

Lemma Qdiv_Z_ge a b c :
  0 < b -> c * b <= a -> (inject_Z c <= inject_Z a / inject_Z b)%Q.
Proof.
  intros Hb H. apply Qle_shift_div_l; [apply inject_Z_pos, Hb|].
  rewrite <- inject_Z_mult, <- Zle_Qle. exact H.
Qed.

Lemma Qdiv_Z_mono a a' b :
  0 < b -> a <= a' -> (inject_Z a / inject_Z b <= inject_Z a' / inject_Z b)%Q.
Proof.
  intros Hb H. unfold Qdiv. apply Qmult_le_compat_r.
  - rewrite <- Zle_Qle. exact H.
  - apply Qlt_le_weak, Qinv_lt_0_compat, inject_Z_pos, Hb.
Qed.

Lemma pan_offset_single m n i : n <= 1 -> pan_offset m n i = Ok 0.
Proof.
  intros Hn. unfold pan_offset. destruct (Z.gtb_spec n 1); [lia | reflexivity].
Qed.

Lemma pan_offset_eval m n i :
  1 < n -> 0 <= m < 2 ^ 53 -> 0 <= i <= n - 1 ->
  pan_offset m n i = Ok (offset_value m n i) /\ 0 <= offset_value m n i <= m.
Proof.
  intros Hn Hm Hi. unfold pan_offset, offset_value.
  destruct (Z.gtb_spec n 1); [|lia].
  rewrite int_truediv_eval by lia.
  assert (P : (0 <= inject_Z (m * i) / inject_Z (n - 1))%Q).
  { change 0%Q with (inject_Z 0). apply Qdiv_Z_ge; nia. }
  assert (B : (inject_Z (m * i) / inject_Z (n - 1) <= inject_Z m)%Q).
  { apply Qdiv_Z_le; nia. }
  destruct (ieee_below _ m P B ltac:(lia)) as [_ [R0 R1]].
  rewrite overflows_false;
    [| assumption | pose proof (Z_below_emax m ltac:(lia)); lra].
  unfold bind. rewrite int_of_float_nonneg by assumption.
  split; [reflexivity|].
  split; [apply Qfloor_nonneg, R0 | apply Qfloor_le_Z, R1].
Qed.

Lemma offset_value_mono m n i j :
  1 < n -> 0 <= m -> 0 <= i -> i <= j ->
  offset_value m n i <= offset_value m n j.
Proof.
  intros Hn Hm Hi Hij. unfold offset_value.
  apply Qfloor_resp_le, round_mono.
  - change 0%Q with (inject_Z 0). apply Qdiv_Z_ge; nia.
  - apply Qdiv_Z_mono; nia.
Qed.

Lemma offset_value_first m n : offset_value m n 0 = 0.
Proof.
  unfold offset_value. rewrite Z.mul_0_r.
  rewrite round_of_zero; [reflexivity|].
  unfold Qdiv. change (inject_Z 0) with 0%Q. ring.
Qed.

Lemma offset_value_last m n :
  1 < n -> 0 <= m < 2 ^ 53 -> offset_value m n (n - 1) = m.
Proof.
  intros Hn Hm. unfold offset_value.
  assert (E : (inject_Z (m * (n - 1)) / inject_Z (n - 1) == inject_Z m)%Q).
  { rewrite inject_Z_mult. field.
    pose proof (inject_Z_pos (n - 1) ltac:(lia)). lra. }
  assert (R : (round (inject_Z (m * (n - 1)) / inject_Z (n - 1)) == inject_Z m)%Q).
  { apply Qeq_trans with (round (inject_Z m)); [|apply round_Z, Hm].
    apply round_comp; [|exact E].
    rewrite E. apply inject_Z_nonneg. lia. }
  rewrite R. apply Qfloor_Z.
Qed.

(** Within double precision the truncated quotient is the floor
    quotient. *)
Lemma truediv_floor_exact a b :
  0 <= a -> 0 < b -> a + b <= 2 ^ 52 ->
  Qfloor (round (inject_Z a / inject_Z b)) = a / b.
Proof.
  intros Ha Hb Hab.
  set (k := a / b).
  assert (K0 : 0 <= k) by (apply Z.div_pos; lia).
  assert (K1 : k * b <= a) by (unfold k; rewrite Z.mul_comm; apply Z.mul_div_le; lia).
  assert (K2 : a < (k + 1) * b).
  { unfold k. pose proof (Z.mul_succ_div_gt a b Hb). lia. }
  assert (P52 : 2 ^ 53 = 2 * 2 ^ 52) by reflexivity.
  assert (P : (0 <= inject_Z a / inject_Z b)%Q).
  { change 0%Q with (inject_Z 0). apply Qdiv_Z_ge; lia. }
  assert (Lo : k <= Qfloor (round (inject_Z a / inject_Z b))).
  { apply Qfloor_ge_Z, round_ge_repr.
    - apply inject_Z_nonneg, K0.
    - apply Qdiv_Z_ge; assumption.
    - apply representable_Z. nia. }
  set (j := Z.log2_up b).
  assert (J0 : 0 <= j) by apply Z.log2_up_nonneg.
  assert (J1 : b <= 2 ^ j /\ 2 ^ j < 2 * b).
  { destruct (Z.eq_dec b 1) as [-> | NE]; [unfold j; simpl; lia|].
    pose proof (Z.log2_up_spec b ltac:(lia)) as [S1 S2]. fold j in S1, S2.
    split; [exact S2|].
    replace j with (Z.succ (Z.pred j)) by lia.
    rewrite Z.pow_succ_r; [lia|].
    assert (0 < j) by (apply Z.log2_up_pos; lia). lia. }
  set (M := (k + 1) * 2 ^ j - 1).
  assert (HM : 0 <= M < 2 ^ 53) by (unfold M; nia).
  assert (Hj : j <= 53).
  { apply (Z.pow_le_mono_r_iff 2); [lia | lia | nia]. }
  set (t := (inject_Z M * pow2 (- j))%Q).
  assert (Rt : representable t).
  { exists M, (- j). split; [exact HM|]. split; [unfold emin; lia | reflexivity]. }
  assert (Et : (t == inject_Z M / inject_Z (2 ^ j))%Q).
  { unfold t. rewrite <- Qdiv_pow2, pow2_Z by lia. reflexivity. }
  assert (Q2 : (0 < inject_Z (2 ^ j))%Q) by (apply inject_Z_pos; lia).
  assert (Qb : (0 < inject_Z b)%Q) by (apply inject_Z_pos; lia).
  assert (Le : (inject_Z a / inject_Z b <= t)%Q).
  { rewrite Et. apply Qle_shift_div_l; [assumption|].
    assert (E : (inject_Z a / inject_Z b * inject_Z (2 ^ j) ==
                 inject_Z (a * 2 ^ j) / inject_Z b)%Q).
    { rewrite inject_Z_mult. field. lra. }
    rewrite E. apply Qdiv_Z_le; [assumption|]. unfold M. nia. }
  assert (Lt : (t < inject_Z (k + 1))%Q).
  { rewrite Et. apply Qlt_shift_div_r; [assumption|].
    rewrite <- inject_Z_mult, <- Zlt_Qlt. unfold M. lia. }
  pose proof (round_le_repr _ _ P Le Rt) as Up.
  assert (Hi : Qfloor (round (inject_Z a / inject_Z b)) < k + 1).
  { rewrite Zlt_Qlt.
    pose proof (Qfloor_le (round (inject_Z a / inject_Z b))). lra. }
  lia.
Qed.

Lemma offset_value_floor m n i :
  1 < n -> 0 <= m -> 0 <= i <= n - 1 -> (m + 1) * (n - 1) <= 2 ^ 52 ->
  offset_value m n i = m * i / (n - 1).
Proof.
  intros Hn Hm Hi Hb. unfold offset_value.
  apply truediv_floor_exact; nia.
Qed.

(** ** [for] loops over [range] *)

Lemma for_each_total {A B} (body : A -> result B) (f : A -> B) xs :
  (forall x, In x xs -> body x = Ok (f x)) ->
  for_each body xs = Ok (map f xs).
Proof.
  induction xs as [|x xs IH]; intros Hb; [reflexivity|].
  simpl. rewrite (Hb x (or_introl eq_refl)). simpl.
  rewrite IH by (intros y Hy; apply Hb; right; exact Hy). reflexivity.
Qed.

Lemma in_range n i : In i (range n) <-> 0 <= i < n.
Proof.
  unfold range. rewrite in_map_iff. split.
  - intros (k & <- & Hk). apply in_seq in Hk. lia.
  - intros Hi. exists (Z.to_nat i). split; [lia|]. apply in_seq. lia.
Qed.

Lemma range_length n : length (range n) = Z.to_nat n.
Proof. unfold range. rewrite length_map, length_seq. reflexivity. Qed.

Lemma range_nth n i :
  0 <= i < n -> nth_error (range n) (Z.to_nat i) = Some i.
Proof.
  intros Hi. unfold range. rewrite nth_error_map.
  rewrite nth_error_seq.
  destruct (Nat.ltb_spec (Z.to_nat i) (Z.to_nat n)); [|lia].
  simpl. f_equal. lia.
Qed.


Lemma crop_acyclic im b : Crop b im <> im.
Proof.
  revert b. induction im as [W H | b' im IH | sz im IH]; intros b E;
    try discriminate.
  injection E as _ E'. exact (IH _ E').
Qed.

Lemma frame_of_cases image sz b f :
  frame_of image sz b f ->
  f = Resize sz (Crop b image) \/
  (f = Resize sz image /\ b = (0, 0, fst (size image), snd (size image))).
Proof. intros F. destruct F; [left | right]; auto. Qed.

Lemma frame_of_functional image sz b1 b2 f :
  frame_of image sz b1 f -> frame_of image sz b2 f -> b1 = b2.
Proof.
  intros F1 F2.
  destruct (frame_of_cases _ _ _ _ F1) as [E1 | [E1 B1]];
    destruct (frame_of_cases _ _ _ _ F2) as [E2 | [E2 B2]]; subst f.
  - congruence.
  - injection E2 as E. exfalso. eapply crop_acyclic; eauto.
  - injection E2 as E. exfalso. eapply crop_acyclic; eauto.
  - congruence.
Qed.

Lemma pan_offset_ok m n i :
  0 <= m < 2 ^ 53 -> 0 <= i < n ->
  pan_offset m n i = Ok (pan_offset_value m n i) /\
  0 <= pan_offset_value m n i <= m.
Proof.
  intros Hm Hi. unfold pan_offset_value.
  destruct (Z.gtb_spec n 1) as [Hn | Hn].
  - apply pan_offset_eval; lia.
  - rewrite pan_offset_single by lia. split; [reflexivity | lia].
Qed.

Lemma pan_offset_value_mono m n i j :
  0 <= m -> 0 <= i -> i <= j ->
  pan_offset_value m n i <= pan_offset_value m n j.
Proof.
  intros Hm Hi Hij. unfold pan_offset_value.
  destruct (Z.gtb_spec n 1); [apply offset_value_mono; lia | lia].
Qed.

Lemma pan_window_inv image W H tw th w :
  size image = (W, H) -> valid_size (W, H) -> 0 < tw -> 0 < th ->
  pan_window image tw th = Ok w ->
  (exists x, int_truediv tw th = Ok x) /\
  vertical w = (tw >? th) /\
  0 <= crop_width w <= W /\ 0 <= crop_height w <= H /\
  max_offset w = (if vertical w then H - crop_height w
                  else W - crop_width w).
Proof.
  intros Hsz Hv Htw Hth Hw.
  destruct (int_truediv tw th) as [x | e] eqn:Ex.
  - destruct (pan_window_spec image W H tw th x Hsz Hv Htw Hth Ex)
      as (w' & Hw' & Facts).
    rewrite Hw in Hw'. injection Hw' as <-.
    split; [exists x; reflexivity | exact Facts].
  - rewrite (pan_window_raises image tw th e Ex) in Hw. discriminate.
Qed.

Lemma pan_frame_eval image tw th w n i :
  0 <= max_offset w < 2 ^ 53 -> 0 <= i < n ->
  pan_frame image tw th w n i = Ok (pan_frame_value image tw th w n i).
Proof.
  intros Hm Hi. unfold pan_frame, pan_box, pan_frame_value, pan_box_value.
  destruct (pan_offset_ok (max_offset w) n i Hm Hi) as [E _].
  destruct (size image) as [W H].
  destruct (vertical w); rewrite E; reflexivity.
Qed.

Lemma pan_box_value_within sz w off :
  0 <= crop_width w <= fst sz -> 0 <= crop_height w <= snd sz ->
  max_offset w = (if vertical w then snd sz - crop_height w
                  else fst sz - crop_width w) ->
  0 <= off <= max_offset w ->
  box_within (pan_box_value sz w off) sz.
Proof.
  intros Hcw Hch Hmo Hoff. destruct sz as [W H]. simpl in *.
  unfold pan_box_value, box_within.
  pose proof (centered_offset W (crop_width w) Hcw).
  pose proof (centered_offset H (crop_height w) Hch).
  destruct (vertical w); simpl; lia.
Qed.

(** What [pan_frames] returns once the window is known. *)
Lemma pan_frames_eval image W H tw th n w :
  size image = (W, H) -> valid_size (W, H) -> 0 < tw -> 0 < th ->
  pan_window image tw th = Ok w ->
  exists f,
    crop_and_resize_to_ad_size image tw th = Ok f /\
    (exists b, frame_of image (tw, th) b f /\ box_within b (W, H)) /\
    pan_frames image tw th n =
      Ok (if max_offset w >? 0
          then map (pan_frame_value image tw th w n) (range n)
          else [f]).
Proof.
  intros Hsz Hv Htw Hth Hw.
  destruct (pan_window_inv image W H tw th w Hsz Hv Htw Hth Hw)
    as ((x & Ex) & Hvert & Hcw & Hch & Hmo).
  destruct (crop_and_resize_spec image W H tw th x Hsz Hv Htw Hth Ex)
    as (cropped & Ef & Hc).
  exists (Resize (tw, th) cropped). split; [exact Ef|]. split.
  - destruct Hc as [-> | (b & -> & Hb)].
    + eexists. split; [apply frame_whole|]. rewrite Hsz. simpl.
      unfold valid_size in Hv. simpl in Hv. unfold box_within. simpl. lia.
    + exists b. split; [apply frame_cropped | exact Hb].
  - unfold pan_frames. rewrite Hw. unfold bind at 1.
    destruct (valid_size_small W H Hv) as [HW HH].
    destruct (Z.gtb_spec (max_offset w) 0) as [Pos | NPos].
    + apply for_each_total. intros i Hi. apply in_range in Hi.
      apply pan_frame_eval; [|exact Hi].
      destruct (vertical w); lia.
    + rewrite Ef. reflexivity.
Qed.

(** Without an aspect ratio nothing is computed. *)
Lemma pan_frames_raises image tw th n e :
  int_truediv tw th = Raise e -> pan_frames image tw th n = Raise e.
Proof.
  intros E. unfold pan_frames. rewrite (pan_window_raises image tw th e E).
  reflexivity.
Qed.

Lemma target_aspect_outcome tw th :
  0 < th ->
  int_truediv tw th = Raise OverflowError \/ exists x, int_truediv tw th = Ok x.
Proof.
  intros Hth. rewrite int_truediv_eval by lia.
  destruct (overflows _); [left | right; eexists]; reflexivity.
Qed.

Lemma pan_window_total image W H tw th x :
  size image = (W, H) -> valid_size (W, H) -> 0 < tw -> 0 < th ->
  int_truediv tw th = Ok x -> exists w, pan_window image tw th = Ok w.
Proof.
  intros Hsz Hv Htw Hth Ex.
  destruct (pan_window_spec image W H tw th x Hsz Hv Htw Hth Ex) as (w & Hw & _).
  exists w. exact Hw.
Qed.

(** The GIF that is saved holds exactly the frames that were built. *)
Lemma create_panning_gif_saves image tw th n d frames :
  pan_frames image tw th n = Ok frames ->
  create_panning_gif image tw th n d = Ok (save_gif frames d).
Proof. intros E. unfold create_panning_gif. rewrite E. reflexivity. Qed.

Lemma save_gif_frames frames d :
  frames <> [] -> option_map gif_frames (save_gif frames d) = Some frames.
Proof. destruct frames; [contradiction | reflexivity]. Qed.

(** A target no more elongated than [2^1023 : 1] has a finite aspect
    ratio; every size that [resize] accepts is of this kind. *)
Lemma target_aspect_finite tw th :
  0 < tw -> 0 < th -> tw <= 2 ^ 1023 * th ->
  exists x, int_truediv tw th = Ok x.
Proof.
  intros Htw Hth Hb. rewrite int_truediv_eval by lia.
  assert (P : (0 <= inject_Z tw / inject_Z th)%Q).
  { change 0%Q with (inject_Z 0). apply Qdiv_Z_ge; lia. }
  assert (B : (inject_Z tw / inject_Z th <= inject_Z 1 * pow2 1023)%Q).
  { rewrite pow2_Z, <- inject_Z_mult by lia. apply Qdiv_Z_le; lia. }
  assert (R : representable (inject_Z 1 * pow2 1023)).
  { exists 1, 1023. split; [lia|]. split; [unfold emin; lia | reflexivity]. }
  pose proof (round_le_repr _ _ P B R) as Up.
  rewrite overflows_false; [eexists; reflexivity | apply round_nonneg, P |].
  apply Qle_lt_trans with (inject_Z 1 * pow2 1023)%Q; [exact Up|].
  rewrite Qmult_1_l. apply pow2_lt. unfold emax. lia.
Qed.

Lemma nth_error_frames image tw th w n i :
  0 <= i < n ->
  nth_error (map (pan_frame_value image tw th w n) (range n)) (Z.to_nat i) =
    Some (pan_frame_value image tw th w n i).
Proof.
  intros Hi. rewrite nth_error_map, range_nth by assumption. reflexivity.
Qed.

Lemma pan_coordinate_value sz w off :
  pan_coordinate w (pan_box_value sz w off) = off.
Proof.
  destruct sz as [W H]. unfold pan_coordinate, pan_box_value.
  destruct (vertical w); reflexivity.
Qed.

Lemma pan_frame_value_within image W H tw th w n i :
  size image = (W, H) ->
  0 <= crop_width w <= W -> 0 <= crop_height w <= H ->
  max_offset w = (if vertical w then H - crop_height w else W - crop_width w) ->
  0 <= max_offset w < 2 ^ 53 -> 0 <= i < n ->
  exists b, frame_of image (tw, th) b (pan_frame_value image tw th w n i) /\
            box_within b (W, H) /\
            pan_coordinate w b = pan_offset_value (max_offset w) n i.
Proof.
  intros Hsz Hcw Hch Hmo Hm Hi. unfold pan_frame_value. rewrite Hsz.
  eexists. split; [apply frame_cropped|]. split.
  - apply pan_box_value_within; simpl; try assumption.
    apply (pan_offset_ok (max_offset w) n i Hm Hi).
  - apply pan_coordinate_value.
Qed.

Lemma frame_of_size image sz b f : frame_of image sz b f -> size f = sz.
Proof. intros F. destruct F; reflexivity. Qed.

(* ================================================================= *)
(** * The model against the standard library's IEEE-754 specification *)

(** On the operands of the spec's worked examples the operations above
    return exactly the binary64 values that [SpecFloat] computes. *)

Example truediv_304_248_is_binary64 :
  int_truediv 304 248 = Ok (Fin (5520541478712221 # 4503599627370496)) /\
  to_spec (Fin (5520541478712221 # 4503599627370496)) =
    SpecFloat.SFdiv 53 1024 (SpecFloat.S754_finite false 304 0)
                            (SpecFloat.S754_finite false 248 0).
Proof. split; vm_compute; reflexivity. Qed.

Example scaled_height_is_binary64 :
  option_map to_spec
    (match (a <- int_truediv 304 248 ;; int_div_float 1024 a) with
     | Ok s => Some s
     | Raise _ => None
     end) =
  Some (SpecFloat.SFdiv 53 1024 (SpecFloat.S754_finite false 1024 0)
          (SpecFloat.SFdiv 53 1024 (SpecFloat.S754_finite false 304 0)
                                   (SpecFloat.S754_finite false 248 0))).
Proof. vm_compute. reflexivity. Qed.

Example scaled_width_is_binary64 :
  option_map to_spec
    (match (a <- int_truediv 160 600 ;; int_mul_float 1024 a) with
     | Ok s => Some s
     | Raise _ => None
     end) =
  Some (SpecFloat.SFmul 53 1024 (SpecFloat.S754_finite false 1024 0)
          (SpecFloat.SFdiv 53 1024 (SpecFloat.S754_finite false 160 0)
                                   (SpecFloat.S754_finite false 600 0))).
Proof. vm_compute. reflexivity. Qed.

(** The billboard example of the spec: 968x248 from a 1024x1024 master. *)
Example billboard_pan_window :
  pan_window (Source 1024 1024) 968 248 = Ok (mkPanWindow true 1024 262 762).
Proof. vm_compute. reflexivity. Qed.

(** Why the size of the source is bounded in the claims below: a source
    taller than [2^53] rows, which Pillow cannot hold, has pan offsets
    that are not exact as floats, and the last window of a two-frame
    pan would end one row below the image. *)
Example oversized_source_window_escapes :
  pan_frames (Source 2 (2 ^ 54 + 4)) 2 1 2 =
    Ok [Resize (2, 1) (Crop (0, 0, 2, 1) (Source 2 (2 ^ 54 + 4)));
        Resize (2, 1) (Crop (0, 2 ^ 54 + 4, 2, 2 ^ 54 + 5)
                            (Source 2 (2 ^ 54 + 4)))].
Proof. vm_compute. reflexivity. Qed.

(* ================================================================= *)
(** * The claims *)

(** C1 (as amended).  For a source image of valid size, a positive target
    and a pan window with [max_offset > 0], [create_panning_gif] with
    [num_frames >= 2] builds exactly [num_frames] frames; frame [i] is the
    window at pan offset [int((max_offset * i) / (num_frames - 1))], the
    correctly rounded binary64 quotient truncated.  The offset of frame
    [0] is [0] and that of frame [num_frames - 1] is [max_offset], for
    every [num_frames >= 2].  The offset of frame [i] is the floor
    quotient [max_offset * i // (num_frames - 1)] whenever
    [(max_offset + 1) * (num_frames - 1) <= 2^52], that is, as long as
    the true division stays within double precision. *)
Theorem pan_offsets_linear_within_double image tw th n d w :
  valid_size (size image) -> 0 < tw -> 0 < th ->
  pan_window image tw th = Ok w -> 0 < max_offset w -> 2 <= n ->
  exists frames,
    pan_frames image tw th n = Ok frames /\
    length frames = Z.to_nat n /\
    create_panning_gif image tw th n d = Ok (save_gif frames d) /\
    forall i, 0 <= i < n ->
      exists b,
        nth_error frames (Z.to_nat i) = Some (Resize (tw, th) (Crop b image)) /\
        pan_offset (max_offset w) n i = Ok (pan_coordinate w b) /\
        pan_coordinate w b = offset_value (max_offset w) n i /\
        (i = 0 -> pan_coordinate w b = 0) /\
        (i = n - 1 -> pan_coordinate w b = max_offset w) /\
        ((max_offset w + 1) * (n - 1) <= 2 ^ 52 ->
         pan_coordinate w b = max_offset w * i / (n - 1)).
Proof.
  intros Hv Htw Hth Hw Hpos Hn.
  destruct (size image) as [W H] eqn:Hsz.
  destruct (pan_frames_eval image W H tw th n w Hsz Hv Htw Hth Hw)
    as (f & _ & _ & Ef).
  destruct (pan_window_inv image W H tw th w Hsz Hv Htw Hth Hw)
    as (_ & _ & Hcw & Hch & Hmo).
  destruct (valid_size_small W H Hv) as [HW HH].
  assert (Hm : 0 <= max_offset w < 2 ^ 53) by (destruct (vertical w); lia).
  destruct (Z.gtb_spec (max_offset w) 0) as [_ | C]; [|lia].
  eexists. split; [exact Ef|]. split; [|split].
  - rewrite length_map. apply range_length.
  - apply create_panning_gif_saves, Ef.
  - intros i Hi. eexists. split; [apply nth_error_frames, Hi|].
    rewrite pan_coordinate_value. unfold pan_offset_value.
    destruct (Z.gtb_spec n 1); [|lia].
    split; [apply (pan_offset_eval (max_offset w) n i); lia|].
    split; [reflexivity|].
    split; [intros ->; apply offset_value_first|].
    split; [intros ->; apply offset_value_last; lia|].
    intros Hb. apply offset_value_floor; lia.
Qed.

Lemma pan_offsets_linear_within_double_witness :
  valid_size (size (Source 1024 1024)) /\ 0 < 968 /\ 0 < 248 /\
  pan_window (Source 1024 1024) 968 248 = Ok (mkPanWindow true 1024 262 762) /\
  2 <= GIF_NUM_FRAMES /\
  exists frames,
    pan_frames (Source 1024 1024) 968 248 GIF_NUM_FRAMES = Ok frames /\
    length frames = 40%nat.
Proof.
  assert (Hv : valid_size (size (Source 1024 1024)))
    by (unfold valid_size, INT_MAX; simpl; lia).
  assert (Hw : pan_window (Source 1024 1024) 968 248
               = Ok (mkPanWindow true 1024 262 762))
    by (vm_compute; reflexivity).
  assert (Hn : 2 <= GIF_NUM_FRAMES) by (unfold GIF_NUM_FRAMES; lia).
  split; [exact Hv|]. split; [lia|]. split; [lia|].
  split; [exact Hw|]. split; [exact Hn|].
  destruct (pan_offsets_linear_within_double
              (Source 1024 1024) 968 248 GIF_NUM_FRAMES GIF_FRAME_DURATION
              (mkPanWindow true 1024 262 762)
              Hv ltac:(lia) ltac:(lia) Hw ltac:(simpl; lia) Hn)
    as (frames & E & L & _).
  exists frames. split; [exact E | exact L].
Defined.

(** C2.  For every source image of valid size and every positive target,
    every crop window used by [crop_and_resize_to_ad_size] and by every
    frame of [create_panning_gif], whatever [num_frames], lies within the
    source: [0 <= left], [left + crop_width <= W], [0 <= top],
    [top + crop_height <= H].  Both functions return, unless the target
    aspect ratio [tw / th] itself is too large for a float, in which case
    both raise [OverflowError] before any window is formed. *)
Theorem crop_windows_within_source image tw th n d :
  valid_size (size image) -> 0 < tw -> 0 < th ->
  (int_truediv tw th = Raise OverflowError /\
   crop_and_resize_to_ad_size image tw th = Raise OverflowError /\
   pan_frames image tw th n = Raise OverflowError)
  \/
  (exists f frames,
     crop_and_resize_to_ad_size image tw th = Ok f /\
     pan_frames image tw th n = Ok frames /\
     create_panning_gif image tw th n d = Ok (save_gif frames d) /\
     Forall (fun g => exists b, frame_of image (tw, th) b g /\
                                box_within b (size image))
            (f :: frames)).
Proof.
  intros Hv Htw Hth.
  destruct (target_aspect_outcome tw th Hth) as [Ov | (x & Ex)].
  - left. split; [exact Ov|]. split.
    + apply crop_and_resize_raises, Ov.
    + apply pan_frames_raises, Ov.
  - right. destruct (size image) as [W H] eqn:Hsz.
    destruct (pan_window_total image W H tw th x Hsz Hv Htw Hth Ex) as (w & Hw).
    destruct (pan_frames_eval image W H tw th n w Hsz Hv Htw Hth Hw)
      as (f & Ef & Hf & Efr).
    destruct (pan_window_inv image W H tw th w Hsz Hv Htw Hth Hw)
      as (_ & _ & Hcw & Hch & Hmo).
    destruct (valid_size_small W H Hv) as [HW HH].
    assert (Hm : 0 <= max_offset w < 2 ^ 53) by (destruct (vertical w); lia).
    exists f. eexists. split; [exact Ef|]. split; [exact Efr|].
    split; [apply create_panning_gif_saves, Efr|].
    constructor; [exact Hf|].
    destruct (max_offset w >? 0).
    + apply Forall_forall. intros g Hg. apply in_map_iff in Hg.
      destruct Hg as (i & <- & Hi). apply in_range in Hi.
      destruct (pan_frame_value_within image W H tw th w n i
                  Hsz Hcw Hch Hmo Hm Hi) as (b & Fb & Wb & _).
      exists b. split; assumption.
    + constructor; [exact Hf | constructor].
Qed.

Lemma crop_windows_within_source_witness :
  valid_size (size (Source 1024 1024)) /\ 0 < 160 /\ 0 < 600 /\
  exists f frames,
    crop_and_resize_to_ad_size (Source 1024 1024) 160 600 = Ok f /\
    pan_frames (Source 1024 1024) 160 600 3 = Ok frames /\
    create_panning_gif (Source 1024 1024) 160 600 3 GIF_FRAME_DURATION
      = Ok (save_gif frames GIF_FRAME_DURATION) /\
    Forall (fun g => exists b, frame_of (Source 1024 1024) (160, 600) b g /\
                               box_within b (size (Source 1024 1024)))
           (f :: frames).
Proof.
  assert (Hv : valid_size (size (Source 1024 1024)))
    by (unfold valid_size, INT_MAX; simpl; lia).
  split; [exact Hv|]. split; [lia|]. split; [lia|].
  destruct (crop_windows_within_source (Source 1024 1024) 160 600 3
              GIF_FRAME_DURATION Hv ltac:(lia) ltac:(lia)) as [(Ov & _) | Ok_].
  - vm_compute in Ov. discriminate Ov.
  - exact Ok_.
Defined.

(** C3.  For every source image of valid size and every positive target,
    the frame returned by [crop_and_resize_to_ad_size] and every frame
    built by [create_panning_gif] has size exactly [(tw, th)].  Both
    functions return, unless the aspect ratio [tw / th] overflows. *)
Theorem frames_have_target_size image tw th n d :
  valid_size (size image) -> 0 < tw -> 0 < th ->
  (int_truediv tw th = Raise OverflowError /\
   crop_and_resize_to_ad_size image tw th = Raise OverflowError /\
   pan_frames image tw th n = Raise OverflowError)
  \/
  (exists f frames,
     crop_and_resize_to_ad_size image tw th = Ok f /\
     pan_frames image tw th n = Ok frames /\
     create_panning_gif image tw th n d = Ok (save_gif frames d) /\
     size f = (tw, th) /\
     Forall (fun g => size g = (tw, th)) frames).
Proof.
  intros Hv Htw Hth.
  destruct (target_aspect_outcome tw th Hth) as [Ov | (x & Ex)].
  - left. split; [exact Ov|]. split.
    + apply crop_and_resize_raises, Ov.
    + apply pan_frames_raises, Ov.
  - right. destruct (size image) as [W H] eqn:Hsz.
    destruct (pan_window_total image W H tw th x Hsz Hv Htw Hth Ex) as (w & Hw).
    destruct (pan_frames_eval image W H tw th n w Hsz Hv Htw Hth Hw)
      as (f & Ef & (b & Fb & _) & Efr).
    pose proof (frame_of_size _ _ _ _ Fb) as Sf.
    exists f. eexists. split; [exact Ef|]. split; [exact Efr|].
    split; [apply create_panning_gif_saves, Efr|].
    split; [exact Sf|].
    destruct (max_offset w >? 0).
    + apply Forall_forall. intros g Hg. apply in_map_iff in Hg.
      destruct Hg as (i & <- & _). reflexivity.
    + constructor; [exact Sf | constructor].
Qed.

Lemma frames_have_target_size_witness :
  valid_size (size (Source 1024 1024)) /\ 0 < 728 /\ 0 < 88 /\
  exists f frames,
    crop_and_resize_to_ad_size (Source 1024 1024) 728 88 = Ok f /\
    pan_frames (Source 1024 1024) 728 88 GIF_NUM_FRAMES = Ok frames /\
    create_panning_gif (Source 1024 1024) 728 88
        GIF_NUM_FRAMES GIF_FRAME_DURATION
      = Ok (save_gif frames GIF_FRAME_DURATION) /\
    size f = (728, 88) /\
    Forall (fun g => size g = (728, 88)) frames.
Proof.
  assert (Hv : valid_size (size (Source 1024 1024)))
    by (unfold valid_size, INT_MAX; simpl; lia).
  split; [exact Hv|]. split; [lia|]. split; [lia|].
  destruct (frames_have_target_size (Source 1024 1024) 728 88 GIF_NUM_FRAMES
              GIF_FRAME_DURATION Hv ltac:(lia) ltac:(lia)) as [(Ov & _) | Ok_].
  - vm_compute in Ov. discriminate Ov.
  - exact Ok_.
Defined.

(** C5.  For every source image of valid size and positive target, when
    the pan range is not positive ([max_offset <= 0]) [create_panning_gif]
    builds exactly one frame, the result of
    [crop_and_resize_to_ad_size(image, tw, th)], whatever [num_frames],
    and saves it as a one-frame GIF. *)
Theorem degenerate_pan_is_center_crop image tw th n d w :
  valid_size (size image) -> 0 < tw -> 0 < th ->
  pan_window image tw th = Ok w -> max_offset w <= 0 ->
  exists f,
    crop_and_resize_to_ad_size image tw th = Ok f /\
    pan_frames image tw th n = Ok [f] /\
    create_panning_gif image tw th n d = Ok (Some (mkGif f [] d 0)).
Proof.
  intros Hv Htw Hth Hw Hmo.
  destruct (size image) as [W H] eqn:Hsz.
  destruct (pan_frames_eval image W H tw th n w Hsz Hv Htw Hth Hw)
    as (f & Ef & _ & Efr).
  destruct (Z.gtb_spec (max_offset w) 0) as [C | _]; [lia|].
  exists f. split; [exact Ef|]. split; [exact Efr|].
  apply (create_panning_gif_saves _ _ _ _ d _ Efr).
Qed.

Lemma degenerate_pan_is_center_crop_witness :
  valid_size (size (Source 1024 1024)) /\ 0 < 248 /\
  pan_window (Source 1024 1024) 248 248 = Ok (mkPanWindow false 1024 1024 0) /\
  exists f,
    crop_and_resize_to_ad_size (Source 1024 1024) 248 248 = Ok f /\
    pan_frames (Source 1024 1024) 248 248 GIF_NUM_FRAMES = Ok [f] /\
    create_panning_gif (Source 1024 1024) 248 248
        GIF_NUM_FRAMES GIF_FRAME_DURATION
      = Ok (Some (mkGif f [] GIF_FRAME_DURATION 0)).
Proof.
  assert (Hv : valid_size (size (Source 1024 1024)))
    by (unfold valid_size, INT_MAX; simpl; lia).
  assert (Hw : pan_window (Source 1024 1024) 248 248
               = Ok (mkPanWindow false 1024 1024 0))
    by (vm_compute; reflexivity).
  split; [exact Hv|]. split; [lia|]. split; [exact Hw|].
  apply (degenerate_pan_is_center_crop (Source 1024 1024) 248 248
           GIF_NUM_FRAMES GIF_FRAME_DURATION (mkPanWindow false 1024 1024 0)
           Hv ltac:(lia) ltac:(lia) Hw).
  simpl. lia.
Defined.

(** C7.  For every source image of valid size and positive target,
    [create_panning_gif] builds its frame list, and along that list the
    pan-axis coordinate of the crop windows never decreases: for frame
    indices [i <= j], [offset(i) <= offset(j)]. *)
Theorem pan_offsets_monotone image tw th n d w :
  valid_size (size image) -> 0 < tw -> 0 < th ->
  pan_window image tw th = Ok w ->
  exists frames,
    pan_frames image tw th n = Ok frames /\
    create_panning_gif image tw th n d = Ok (save_gif frames d) /\
    forall (i j : nat) fi fj bi bj,
      (i <= j)%nat ->
      nth_error frames i = Some fi -> nth_error frames j = Some fj ->
      frame_of image (tw, th) bi fi -> frame_of image (tw, th) bj fj ->
      pan_coordinate w bi <= pan_coordinate w bj.
Proof.
  intros Hv Htw Hth Hw.
  destruct (size image) as [W H] eqn:Hsz.
  destruct (pan_frames_eval image W H tw th n w Hsz Hv Htw Hth Hw)
    as (f & _ & _ & Efr).
  eexists. split; [exact Efr|].
  split; [apply create_panning_gif_saves, Efr|].
  intros i j fi fj bi bj Hij Ni Nj Fi Fj.
  destruct (pan_window_inv image W H tw th w Hsz Hv Htw Hth Hw)
    as (_ & _ & Hcw & Hch & Hmo).
  destruct (valid_size_small W H Hv) as [HW HH].
  assert (Hm : 0 <= max_offset w < 2 ^ 53) by (destruct (vertical w); lia).
  destruct (max_offset w >? 0).
  - assert (Li : (i < Z.to_nat n)%nat).
    { rewrite <- range_length, <- (length_map (pan_frame_value image tw th w n)).
      apply nth_error_Some. rewrite Ni. discriminate. }
    assert (Lj : (j < Z.to_nat n)%nat).
    { rewrite <- range_length, <- (length_map (pan_frame_value image tw th w n)).
      apply nth_error_Some. rewrite Nj. discriminate. }
    rewrite <- (Nat2Z.id i) in Ni. rewrite <- (Nat2Z.id j) in Nj.
    rewrite nth_error_frames in Ni, Nj by lia.
    injection Ni as <-. injection Nj as <-.
    destruct (pan_frame_value_within image W H tw th w n (Z.of_nat i)
                Hsz Hcw Hch Hmo Hm ltac:(lia)) as (bi' & Fi' & _ & Ci).
    destruct (pan_frame_value_within image W H tw th w n (Z.of_nat j)
                Hsz Hcw Hch Hmo Hm ltac:(lia)) as (bj' & Fj' & _ & Cj).
    rewrite (frame_of_functional _ _ _ _ _ Fi Fi').
    rewrite (frame_of_functional _ _ _ _ _ Fj Fj').
    rewrite Ci, Cj. apply pan_offset_value_mono; lia.
  - destruct i as [|i]; [|destruct i; discriminate].
    destruct j as [|j]; [|destruct j; discriminate].
    simpl in Ni, Nj. injection Ni as <-. injection Nj as <-.
    rewrite (frame_of_functional _ _ _ _ _ Fi Fj). lia.
Qed.

Lemma pan_offsets_monotone_witness :
  valid_size (size (Source 1024 1024)) /\ 0 < 160 /\ 0 < 600 /\
  pan_window (Source 1024 1024) 160 600 = Ok (mkPanWindow false 273 1024 751) /\
  exists frames,
    pan_frames (Source 1024 1024) 160 600 3 = Ok frames /\
    create_panning_gif (Source 1024 1024) 160 600 3 GIF_FRAME_DURATION
      = Ok (save_gif frames GIF_FRAME_DURATION) /\
    forall (i j : nat) fi fj bi bj,
      (i <= j)%nat ->
      nth_error frames i = Some fi -> nth_error frames j = Some fj ->
      frame_of (Source 1024 1024) (160, 600) bi fi ->
      frame_of (Source 1024 1024) (160, 600) bj fj ->
      pan_coordinate (mkPanWindow false 273 1024 751) bi
        <= pan_coordinate (mkPanWindow false 273 1024 751) bj.
Proof.
  assert (Hv : valid_size (size (Source 1024 1024)))
    by (unfold valid_size, INT_MAX; simpl; lia).
  assert (Hw : pan_window (Source 1024 1024) 160 600
               = Ok (mkPanWindow false 273 1024 751))
    by (vm_compute; reflexivity).
  split; [exact Hv|]. split; [lia|]. split; [lia|]. split; [exact Hw|].
  apply (pan_offsets_monotone (Source 1024 1024) 160 600 3
           GIF_FRAME_DURATION (mkPanWindow false 273 1024 751) Hv ltac:(lia) ltac:(lia) Hw).
Defined.

(** C8.  For every source with [W, H >= 1] and target with [tw, th >= 1],
    the pan range computed by [create_panning_gif] ([max_top] or
    [max_left]) is never negative, because the shrink step caps the
    window at the source extent along the pan axis; so the single-frame
    branch is taken exactly when the pan range is [0], and the frame loop
    exactly when it is not.  For a source of valid size the window is
    always computed, unless the aspect ratio [tw / th] overflows. *)
Theorem pan_range_nonnegative image tw th n :
  1 <= fst (size image) -> 1 <= snd (size image) -> 1 <= tw -> 1 <= th ->
  (forall w, pan_window image tw th = Ok w ->
     0 <= max_offset w /\
     (max_offset w = 0 ->
      pan_frames image tw th n =
        (f <- crop_and_resize_to_ad_size image tw th ;; Ok [f])) /\
     (max_offset w <> 0 ->
      pan_frames image tw th n =
        for_each (pan_frame image tw th w n) (range n))) /\
  (valid_size (size image) ->
   (exists w, pan_window image tw th = Ok w) \/
   (int_truediv tw th = Raise OverflowError /\
    pan_window image tw th = Raise OverflowError)).
Proof.
  intros HW HH Htw Hth. split.
  - intros w Hw.
    assert (N : 0 <= max_offset w).
    { unfold pan_window in Hw. destruct (size image) as [W H]. simpl in *.
      destruct (int_truediv tw th) as [a|]; [|discriminate].
      cbn [bind] in Hw.
      destruct (tw >? th).
      - destruct (int_div_float W a) as [s|]; [|discriminate]. cbn [bind] in Hw.
        destruct (int_of_float s) as [ch|]; [|discriminate]. cbn [bind] in Hw.
        destruct (Z.gtb_spec ch H).
        + destruct (int_mul_float H a) as [s2|]; [|discriminate]. cbn [bind] in Hw.
          destruct (int_of_float s2) as [cw|]; [|discriminate]. cbn [bind] in Hw.
          injection Hw as <-. simpl. lia.
        + cbn [bind] in Hw. injection Hw as <-. simpl. lia.
      - destruct (int_mul_float H a) as [s|]; [|discriminate]. cbn [bind] in Hw.
        destruct (int_of_float s) as [cw|]; [|discriminate]. cbn [bind] in Hw.
        destruct (Z.gtb_spec cw W).
        + destruct (int_div_float W a) as [s2|]; [|discriminate]. cbn [bind] in Hw.
          destruct (int_of_float s2) as [ch|]; [|discriminate]. cbn [bind] in Hw.
          injection Hw as <-. simpl. lia.
        + cbn [bind] in Hw. injection Hw as <-. simpl. lia. }
    split; [exact N|]. unfold pan_frames. rewrite Hw. cbn [bind].
    split; intros Hz; destruct (Z.gtb_spec (max_offset w) 0); try lia; reflexivity.
  - intros Hv.
    destruct (target_aspect_outcome tw th ltac:(lia)) as [Ov | (x & Ex)].
    + right. split; [exact Ov | apply pan_window_raises, Ov].
    + left. destruct (size image) as [W H] eqn:Hsz.
      apply (pan_window_total image W H tw th x Hsz Hv); (lia || assumption).
Qed.

Lemma pan_range_nonnegative_witness :
  1 <= fst (size (Source 1024 1024)) /\ 1 <= snd (size (Source 1024 1024)) /\
  1 <= 304 /\ 1 <= 248 /\
  pan_window (Source 1024 1024) 304 248 = Ok (mkPanWindow true 1024 835 189) /\
  0 <= max_offset (mkPanWindow true 1024 835 189).
Proof.
  assert (Hw : pan_window (Source 1024 1024) 304 248
               = Ok (mkPanWindow true 1024 835 189))
    by (vm_compute; reflexivity).
  split; [simpl; lia|]. split; [simpl; lia|]. split; [lia|]. split; [lia|].
  split; [exact Hw|].
  apply (proj1 (pan_range_nonnegative (Source 1024 1024) 304 248 GIF_NUM_FRAMES
                  ltac:(simpl; lia) ltac:(simpl; lia) ltac:(lia) ltac:(lia))
               (mkPanWindow true 1024 835 189) Hw).
Defined.

(** C10.  When the pan range is positive and [num_frames = 0],
    [create_panning_gif] builds the empty frame list, the guard
    [if frames:] skips the save, and the call ends without an exception:
    nothing is written. *)
Theorem zero_frames_saves_nothing image tw th d w :
  pan_window image tw th = Ok w -> 0 < max_offset w ->
  pan_frames image tw th 0 = Ok [] /\
  create_panning_gif image tw th 0 d = Ok None.
Proof.
  intros Hw Hpos.
  assert (E : pan_frames image tw th 0 = Ok []).
  { unfold pan_frames. rewrite Hw. cbn [bind].
    destruct (Z.gtb_spec (max_offset w) 0); [reflexivity | lia]. }
  split; [exact E|]. apply (create_panning_gif_saves _ _ _ _ d _ E).
Qed.

Lemma zero_frames_saves_nothing_witness :
  pan_window (Source 1024 1024) 968 248 = Ok (mkPanWindow true 1024 262 762) /\
  0 < max_offset (mkPanWindow true 1024 262 762) /\
  pan_frames (Source 1024 1024) 968 248 0 = Ok [] /\
  create_panning_gif (Source 1024 1024) 968 248 0 GIF_FRAME_DURATION = Ok None.
Proof.
  assert (Hw : pan_window (Source 1024 1024) 968 248
               = Ok (mkPanWindow true 1024 262 762))
    by (vm_compute; reflexivity).
  split; [exact Hw|]. split; [simpl; lia|].
  apply (zero_frames_saves_nothing (Source 1024 1024) 968 248
           GIF_FRAME_DURATION (mkPanWindow true 1024 262 762) Hw).
  simpl. lia.
Defined.

(** C9.  Positive source and target dimensions do not make the crop
    window of [crop_and_resize_to_ad_size] non-empty: for
    [W = H = 10], [tw = 1], [th = 1000] the new width
    [int(H * (tw / th))] is [0] and the box handed to [image.crop] has
    width [0]. *)
Theorem positive_dimensions_allow_empty_crop :
  exists W H tw th l u r d,
    0 < W /\ 0 < H /\ 0 < tw /\ 0 < th /\
    (a <- int_truediv tw th ;; s <- int_mul_float H a ;; int_of_float s)
      = Ok 0 /\
    crop_and_resize_to_ad_size (Source W H) tw th =
      Ok (Resize (tw, th) (Crop (l, u, r, d) (Source W H))) /\
    fst (size (Crop (l, u, r, d) (Source W H))) = 0.
Proof.
  exists 10, 10, 1, 1000, 5, 0, 5, 10.
  repeat split; try lia; vm_compute; reflexivity.
Qed.

(** A tall source of Pillow size, 2 x 2130706434, and the target 2 x 1:
    the window is one row high and the pan range is
    [2130706433 = 127 * 2^24 + 1].  With [num_frames = 2^24 + 1], the
    frame of index [i = num_frames - 2] in the list that
    [create_panning_gif] builds is cropped at offset [2130706306], while
    [floor(max_top * i / (num_frames - 1))] is [2130706305]: the exact
    quotient is [2130706306 - 2^-24], the doubles around it are
    [2^-22] apart, and the nearest one is [2130706306.0]. *)
Lemma tall_source_frame_beyond_double :
  exists frames,
    pan_window (Source 2 2130706434) 2 1
      = Ok (mkPanWindow true 2 1 2130706433) /\
    pan_frames (Source 2 2130706434) 2 1 (2 ^ 24 + 1) = Ok frames /\
    nth_error frames (Z.to_nat (2 ^ 24 - 1))
      = Some (Resize (2, 1)
                (Crop (0, 2130706306, 2, 2130706307)
                      (Source 2 2130706434))) /\
    2130706433 * (2 ^ 24 - 1) / (2 ^ 24 + 1 - 1) = 2130706305.
Proof.
  assert (Hv : valid_size (2, 2130706434))
    by (unfold valid_size, INT_MAX; simpl; lia).
  assert (Hw : pan_window (Source 2 2130706434) 2 1
               = Ok (mkPanWindow true 2 1 2130706433))
    by (vm_compute; reflexivity).
  destruct (pan_frames_eval (Source 2 2130706434) 2 2130706434 2 1
              (2 ^ 24 + 1) _ eq_refl Hv ltac:(lia) ltac:(lia) Hw)
    as (f & _ & _ & Ef).
  change (max_offset (mkPanWindow true 2 1 2130706433) >? 0)
    with true in Ef. cbv iota in Ef.
  eexists. split; [exact Hw|]. split; [exact Ef|]. split.
  - rewrite nth_error_frames by lia. apply f_equal. vm_compute. reflexivity.
  - vm_compute. reflexivity.
Qed.

(** C1, as stated, fails beyond double precision: the pan offset of a
    frame of the sequence is not always the floor quotient. *)
Lemma pan_offset_not_floor_beyond_double :
  ~ (forall image tw th n w frames i b,
       valid_size (size image) -> 0 < tw -> 0 < th ->
       pan_window image tw th = Ok w -> 0 < max_offset w ->
       2 <= n -> 0 <= i < n ->
       pan_frames image tw th n = Ok frames ->
       nth_error frames (Z.to_nat i)
         = Some (Resize (tw, th) (Crop b image)) ->
       pan_coordinate w b = max_offset w * i / (n - 1)).
Proof.
  intros C.
  destruct tall_source_frame_beyond_double as (frames & Hw & Hf & Hi & Hq).
  assert (Hv : valid_size (size (Source 2 2130706434)))
    by (unfold valid_size, INT_MAX; simpl; lia).
  pose proof (C (Source 2 2130706434) 2 1 (2 ^ 24 + 1)
                (mkPanWindow true 2 1 2130706433) frames (2 ^ 24 - 1)
                (0, 2130706306, 2, 2130706307)
                Hv ltac:(lia) ltac:(lia) Hw ltac:(simpl; lia)
                ltac:(lia) ltac:(lia) Hf Hi) as E.
  change (2130706306
          = 2130706433 * (2 ^ 24 - 1) / (2 ^ 24 + 1 - 1)) in E.
  rewrite Hq in E. discriminate E.
Qed.

(** C4, as stated, fails: for the 1024x1024 source and the 304x248
    target the window is 835 rows high and the pan range is 189, not 834
    and 190. *)
Lemma medium_rectangle_not_834_190 :
  ~ (exists w,
       pan_window (Source 1024 1024) 304 248 = Ok w /\
       crop_width w = 1024 /\ crop_height w = 834 /\ max_offset w = 190).
Proof.
  intros (w & Hw & _ & Hh & _).
  assert (E : pan_window (Source 1024 1024) 304 248
              = Ok (mkPanWindow true 1024 835 189))
    by (vm_compute; reflexivity).
  rewrite E in Hw. injection Hw as <-. simpl in Hh. discriminate Hh.
Qed.

(** C4 (as amended).  For the 1024x1024 source and the 304x248 target
    [create_panning_gif] takes the landscape branch: [crop_width] is the
    source width 1024 and [crop_height = int(1024 / (304/248)) = 835],
    which does not exceed 1024, so the window is not shrunk (the width
    [int(1024 * (304/248)) = 1255] is never computed on this path).  The
    pan range is [max_top = 1024 - 835 = 189], and with the script's 40
    frames the pan runs from offset 0 to offset 189. *)
Theorem medium_rectangle_pan_window :
  (304 >? 248) = true /\
  (a <- int_truediv 304 248 ;; s <- int_div_float 1024 a ;; int_of_float s)
    = Ok 835 /\
  (835 >? 1024) = false /\
  (a <- int_truediv 304 248 ;; s <- int_mul_float 1024 a ;; int_of_float s)
    = Ok 1255 /\
  pan_window (Source 1024 1024) 304 248 = Ok (mkPanWindow true 1024 835 189) /\
  exists frames,
    pan_frames (Source 1024 1024) 304 248 GIF_NUM_FRAMES = Ok frames /\
    length frames = 40%nat /\
    nth_error frames 0 =
      Some (Resize (304, 248) (Crop (0, 0, 1024, 835) (Source 1024 1024))) /\
    nth_error frames 39 =
      Some (Resize (304, 248) (Crop (0, 189, 1024, 1024) (Source 1024 1024))).
Proof.
  repeat (split; [vm_compute; reflexivity|]).
  eexists. split; [vm_compute; reflexivity|].
  repeat split.
Qed.





(* ================================================================= *)
(** * Further properties of the code *)

(** ** The pan *)

(** What [pan_window] returns, read off its two branches: the window is
    either unshrunk (full extent across the pan axis) or shrunk, and
    then it has no pan range left. *)
Lemma pan_window_shape image tw th w :
  pan_window image tw th = Ok w ->
  vertical w = (tw >? th) /\
  (if vertical w
   then max_offset w = snd (size image) - crop_height w /\
        (crop_width w = fst (size image) \/ max_offset w = 0)
   else max_offset w = fst (size image) - crop_width w /\
        (crop_height w = snd (size image) \/ max_offset w = 0)).
Proof.
  intros Hw. unfold pan_window in Hw. destruct (size image) as [W H]. simpl.
  destruct (int_truediv tw th) as [a|]; [|discriminate]. cbn [bind] in Hw.
  destruct (tw >? th).
  - destruct (int_div_float W a) as [s|]; [|discriminate]. cbn [bind] in Hw.
    destruct (int_of_float s) as [ch|]; [|discriminate]. cbn [bind] in Hw.
    destruct (ch >? H).
    + destruct (int_mul_float H a) as [s2|]; [|discriminate]. cbn [bind] in Hw.
      destruct (int_of_float s2) as [cw|]; [|discriminate]. cbn [bind] in Hw.
      injection Hw as <-. simpl. repeat split; lia.
    + cbn [bind] in Hw. injection Hw as <-. simpl. repeat split; auto.
  - destruct (int_mul_float H a) as [s|]; [|discriminate]. cbn [bind] in Hw.
    destruct (int_of_float s) as [cw|]; [|discriminate]. cbn [bind] in Hw.
    destruct (cw >? W).
    + destruct (int_div_float W a) as [s2|]; [|discriminate]. cbn [bind] in Hw.
      destruct (int_of_float s2) as [ch|]; [|discriminate]. cbn [bind] in Hw.
      injection Hw as <-. simpl. repeat split; lia.
    + cbn [bind] in Hw. injection Hw as <-. simpl. repeat split; auto.
Qed.

Lemma unshrunk_when_panning image tw th w :
  pan_window image tw th = Ok w -> 0 < max_offset w ->
  vertical w = (tw >? th) /\
  (vertical w = true ->
     crop_width w = fst (size image) /\
     (fst (size image) - crop_width w) / 2 = 0 /\
     max_offset w + crop_height w = snd (size image)) /\
  (vertical w = false ->
     crop_height w = snd (size image) /\
     (snd (size image) - crop_height w) / 2 = 0 /\
     max_offset w + crop_width w = fst (size image)).
Proof.
  intros Hw Hpos.
  destruct (pan_window_shape image tw th w Hw) as [Hv Hs].
  split; [exact Hv|].
  destruct (vertical w); destruct Hs as [Hm [Hf | Hz]]; try lia.
  - split; [intros _ | intros E; discriminate E].
    rewrite Hf, Z.sub_diag. repeat split; lia.
  - split; [intros E; discriminate E | intros _].
    rewrite Hf, Z.sub_diag. repeat split; lia.
Qed.

(** X1.  Whenever [create_panning_gif] has a pan range
    ([max_offset > 0]), its window was not shrunk: the pan is vertical
    exactly when [tw > th]; the window spans the whole source across
    the pan axis, so the centring offset on that axis is [0]; and along
    the pan axis the range plus the window length is the source extent. *)
Theorem pan_needs_unshrunk_window image tw th w :
  pan_window image tw th = Ok w -> 0 < max_offset w ->
  vertical w = (tw >? th) /\
  (vertical w = true ->
     crop_width w = fst (size image) /\
     (fst (size image) - crop_width w) / 2 = 0 /\
     max_offset w + crop_height w = snd (size image)) /\
  (vertical w = false ->
     crop_height w = snd (size image) /\
     (snd (size image) - crop_height w) / 2 = 0 /\
     max_offset w + crop_width w = fst (size image)).
Proof. apply unshrunk_when_panning. Qed.

Lemma pan_needs_unshrunk_window_witness :
  pan_window (Source 1024 1024) 968 248 = Ok (mkPanWindow true 1024 262 762) /\
  0 < 762 /\
  (1024 = 1024 /\ (1024 - 1024) / 2 = 0 /\ 762 + 262 = 1024).
Proof.
  assert (Hw : pan_window (Source 1024 1024) 968 248
               = Ok (mkPanWindow true 1024 262 762))
    by (vm_compute; reflexivity).
  split; [exact Hw|]. split; [lia|].
  destruct (pan_needs_unshrunk_window (Source 1024 1024) 968 248
              (mkPanWindow true 1024 262 762) Hw ltac:(simpl; lia))
    as (_ & Vert & _).
  exact (Vert eq_refl).
Defined.

Lemma pan_box_value_sliding image tw th w off :
  pan_window image tw th = Ok w -> 0 < max_offset w ->
  pan_box_value (size image) w off = sliding_box (size image) w off.
Proof.
  intros Hw Hpos.
  destruct (unshrunk_when_panning image tw th w Hw Hpos) as (_ & Hv & Hh).
  unfold pan_box_value, sliding_box. destruct (size image) as [W H].
  simpl in *. destruct (vertical w).
  - destruct (Hv eq_refl) as (E & Z0 & _). rewrite Z0, E. reflexivity.
  - destruct (Hh eq_refl) as (E & Z0 & _). rewrite Z0, E. reflexivity.
Qed.

(** X2.  For a source of valid size, a positive target and a pan range
    [max_offset > 0], [create_panning_gif] builds [max(num_frames, 0)]
    frames, whatever [num_frames]; every frame is the target-size
    resize of a window that spans the whole source across the pan axis
    and starts at an offset between [0] and [max_offset] along it. *)
Theorem pan_frames_slide_along_one_axis image tw th n d w :
  valid_size (size image) -> 0 < tw -> 0 < th ->
  pan_window image tw th = Ok w -> 0 < max_offset w ->
  exists frames,
    pan_frames image tw th n = Ok frames /\
    create_panning_gif image tw th n d = Ok (save_gif frames d) /\
    length frames = Z.to_nat n /\
    Forall (fun f =>
              exists off, 0 <= off <= max_offset w /\
                f = Resize (tw, th)
                      (Crop (sliding_box (size image) w off) image))
           frames.
Proof.
  intros Hv Htw Hth Hw Hpos.
  destruct (size image) as [W H] eqn:Hsz.
  destruct (pan_frames_eval image W H tw th n w Hsz Hv Htw Hth Hw)
    as (f & _ & _ & Ef).
  destruct (pan_window_inv image W H tw th w Hsz Hv Htw Hth Hw)
    as (_ & _ & Hcw & Hch & Hmo).
  destruct (valid_size_small W H Hv) as [HW HH].
  assert (Hm : 0 <= max_offset w < 2 ^ 53) by (destruct (vertical w); lia).
  destruct (Z.gtb_spec (max_offset w) 0) as [_ | C]; [|lia].
  eexists. split; [exact Ef|].
  split; [apply create_panning_gif_saves, Ef|].
  split; [rewrite length_map; apply range_length|].
  apply Forall_forall. intros g Hg. apply in_map_iff in Hg.
  destruct Hg as (i & <- & Hi). apply in_range in Hi.
  exists (pan_offset_value (max_offset w) n i).
  split; [apply (pan_offset_ok (max_offset w) n i Hm Hi)|].
  unfold pan_frame_value.
  rewrite (pan_box_value_sliding image tw th w _ Hw Hpos), Hsz. reflexivity.
Qed.

Lemma pan_frames_slide_along_one_axis_witness :
  valid_size (size (Source 1024 1024)) /\ 0 < 968 /\ 0 < 248 /\
  pan_window (Source 1024 1024) 968 248 = Ok (mkPanWindow true 1024 262 762) /\
  exists frames,
    pan_frames (Source 1024 1024) 968 248 GIF_NUM_FRAMES = Ok frames /\
    length frames = 40%nat.
Proof.
  assert (Hv : valid_size (size (Source 1024 1024)))
    by (unfold valid_size, INT_MAX; simpl; lia).
  assert (Hw : pan_window (Source 1024 1024) 968 248
               = Ok (mkPanWindow true 1024 262 762))
    by (vm_compute; reflexivity).
  split; [exact Hv|]. split; [lia|]. split; [lia|]. split; [exact Hw|].
  destruct (pan_frames_slide_along_one_axis
              (Source 1024 1024) 968 248 GIF_NUM_FRAMES GIF_FRAME_DURATION
              (mkPanWindow true 1024 262 762)
              Hv ltac:(lia) ltac:(lia) Hw ltac:(simpl; lia))
    as (frames & E & _ & L & _).
  exists frames. split; [exact E | exact L].
Defined.

(** X3.  With a pan range and at least two frames, the first frame of
    [create_panning_gif] is the window flush with the top (or left)
    edge of the source and the last frame is the window flush with the
    bottom (or right) edge: the pan sweeps the whole source. *)
Theorem pan_covers_whole_axis image tw th n w :
  valid_size (size image) -> 0 < tw -> 0 < th ->
  pan_window image tw th = Ok w -> 0 < max_offset w -> 2 <= n ->
  exists frames,
    pan_frames image tw th n = Ok frames /\
    nth_error frames 0 =
      Some (Resize (tw, th)
              (Crop (if vertical w
                     then (0, 0, fst (size image), crop_height w)
                     else (0, 0, crop_width w, snd (size image)))
                    image)) /\
    nth_error frames (Z.to_nat (n - 1)) =
      Some (Resize (tw, th)
              (Crop (if vertical w
                     then (0, snd (size image) - crop_height w,
                           fst (size image), snd (size image))
                     else (fst (size image) - crop_width w, 0,
                           fst (size image), snd (size image)))
                    image)).
Proof.
  intros Hv Htw Hth Hw Hpos Hn.
  destruct (size image) as [W H] eqn:Hsz.
  destruct (pan_frames_eval image W H tw th n w Hsz Hv Htw Hth Hw)
    as (f & _ & _ & Ef).
  destruct (pan_window_inv image W H tw th w Hsz Hv Htw Hth Hw)
    as (_ & _ & Hcw & Hch & Hmo).
  destruct (valid_size_small W H Hv) as [HW HH].
  assert (Hm : 0 <= max_offset w < 2 ^ 53) by (destruct (vertical w); lia).
  destruct (Z.gtb_spec (max_offset w) 0) as [_ | C]; [|lia].
  pose proof (pan_box_value_sliding image tw th w) as Sl.
  rewrite Hsz in Sl.
  eexists. split; [exact Ef|]. split.
  - change 0%nat with (Z.to_nat 0). rewrite nth_error_frames by lia.
    unfold pan_frame_value, pan_offset_value. rewrite Hsz.
    destruct (Z.gtb_spec n 1); [|lia].
    rewrite offset_value_first, (Sl 0 Hw Hpos). unfold sliding_box. simpl.
    destruct (vertical w); reflexivity.
  - rewrite nth_error_frames by lia.
    unfold pan_frame_value, pan_offset_value. rewrite Hsz.
    destruct (Z.gtb_spec n 1); [|lia].
    rewrite offset_value_last by lia.
    rewrite (Sl _ Hw Hpos). unfold sliding_box. simpl.
    destruct (vertical w); rewrite Hmo; simpl; repeat f_equal; lia.
Qed.

Lemma pan_covers_whole_axis_witness :
  valid_size (size (Source 1024 1024)) /\ 0 < 968 /\ 0 < 248 /\
  pan_window (Source 1024 1024) 968 248 = Ok (mkPanWindow true 1024 262 762) /\
  2 <= GIF_NUM_FRAMES /\
  exists frames,
    pan_frames (Source 1024 1024) 968 248 GIF_NUM_FRAMES = Ok frames /\
    nth_error frames 0 =
      Some (Resize (968, 248) (Crop (0, 0, 1024, 262) (Source 1024 1024))) /\
    nth_error frames 39 =
      Some (Resize (968, 248) (Crop (0, 762, 1024, 1024) (Source 1024 1024))).
Proof.
  assert (Hv : valid_size (size (Source 1024 1024)))
    by (unfold valid_size, INT_MAX; simpl; lia).
  assert (Hw : pan_window (Source 1024 1024) 968 248
               = Ok (mkPanWindow true 1024 262 762))
    by (vm_compute; reflexivity).
  assert (Hn : 2 <= GIF_NUM_FRAMES) by (unfold GIF_NUM_FRAMES; lia).
  split; [exact Hv|]. split; [lia|]. split; [lia|]. split; [exact Hw|].
  split; [exact Hn|].
  exact (pan_covers_whole_axis
           (Source 1024 1024) 968 248 GIF_NUM_FRAMES
           (mkPanWindow true 1024 262 762)
           Hv ltac:(lia) ltac:(lia) Hw ltac:(simpl; lia) Hn).
Defined.





(** ** Spacing of the pan offsets *)

Lemma floor_step m b i :
  0 < b -> 0 <= m -> 0 <= i ->
  m / b <= m * (i + 1) / b - m * i / b <= m / b + 1.
Proof.
  intros Hb Hm Hi.
  pose proof (Z.div_mod m b ltac:(lia)) as Dm.
  pose proof (Z.mod_pos_bound m b Hb) as Rm.
  set (q := m / b) in *. set (r := m mod b) in *.
  assert (E : m * (i + 1) = (m * i + r) + q * b) by lia.
  rewrite E, Z.div_add by lia.
  assert (L : m * i / b <= (m * i + r) / b) by (apply Z.div_le_mono; lia).
  assert (U : (m * i + r) / b <= (m * i + 1 * b) / b)
    by (apply Z.div_le_mono; lia).
  rewrite Z.div_add in U by lia. lia.
Qed.

(** X6.  While the division stays within double precision
    ([(max_offset + 1) * (num_frames - 1) <= 2^52]), two consecutive pan
    offsets differ by [max_offset // (num_frames - 1)] or by one more;
    so the pan advances at every frame as soon as
    [max_offset >= num_frames - 1]. *)
Theorem pan_offsets_evenly_spaced m n i :
  2 <= n -> 0 <= m -> (m + 1) * (n - 1) <= 2 ^ 52 -> 0 <= i < n - 1 ->
  exists a b,
    pan_offset m n i = Ok a /\ pan_offset m n (i + 1) = Ok b /\
    m / (n - 1) <= b - a <= m / (n - 1) + 1 /\
    (n - 1 <= m -> a < b).
Proof.
  intros Hn Hm Hb Hi.
  assert (M53 : 0 <= m < 2 ^ 53).
  { assert (2 ^ 53 = 2 * 2 ^ 52) by reflexivity. nia. }
  destruct (pan_offset_eval m n i ltac:(lia) M53 ltac:(lia)) as [Ea _].
  destruct (pan_offset_eval m n (i + 1) ltac:(lia) M53 ltac:(lia)) as [Eb _].
  exists (offset_value m n i), (offset_value m n (i + 1)).
  split; [exact Ea|]. split; [exact Eb|].
  rewrite !offset_value_floor by lia.
  pose proof (floor_step m (n - 1) i ltac:(lia) Hm ltac:(lia)) as S.
  split; [exact S|]. intros Hq.
  assert (1 <= m / (n - 1)) by (apply Z.div_le_lower_bound; lia). lia.
Qed.

Lemma pan_offsets_evenly_spaced_witness :
  2 <= 40 /\ 0 <= 762 /\ (762 + 1) * (40 - 1) <= 2 ^ 52 /\ 0 <= 3 < 40 - 1 /\
  exists a b,
    pan_offset 762 40 3 = Ok a /\ pan_offset 762 40 (3 + 1) = Ok b /\
    762 / (40 - 1) <= b - a <= 762 / (40 - 1) + 1 /\
    (40 - 1 <= 762 -> a < b).
Proof.
  assert (Hb : (762 + 1) * (40 - 1) <= 2 ^ 52) by (vm_compute; discriminate).
  split; [lia|]. split; [lia|]. split; [exact Hb|]. split; [lia|].
  exact (pan_offsets_evenly_spaced 762 40 3
           ltac:(lia) ltac:(lia) Hb ltac:(lia)).
Defined.




(** ** The centre crop *)

Lemma aspect_order W H tw th :
  0 < W -> 0 < H -> 0 < tw -> 0 < th ->
  (round (inject_Z tw / inject_Z th) < round (inject_Z W / inject_Z H))%Q ->
  H * tw < W * th.
Proof.
  intros HW HH Htw Hth Lt.
  destruct (Z.lt_ge_cases (H * tw) (W * th)) as [L | G]; [exact L | exfalso].
  assert (Le : (inject_Z W / inject_Z H <= inject_Z tw / inject_Z th)%Q).
  { apply Qle_shift_div_l; [apply inject_Z_pos, Hth|].
    assert (E : (inject_Z W / inject_Z H * inject_Z th ==
                 inject_Z (W * th) / inject_Z H)%Q).
    { rewrite inject_Z_mult. field.
      pose proof (inject_Z_pos H HH). lra. }
    rewrite E. apply Qdiv_Z_le; lia. }
  assert (P : (0 <= inject_Z W / inject_Z H)%Q).
  { change 0%Q with (inject_Z 0). apply Qdiv_Z_ge; lia. }
  pose proof (round_mono _ _ P Le). lra.
Qed.

(** The three outcomes of [crop_and_resize_to_ad_size], with the exact
    comparison of the two aspect ratios that each one implies. *)
Lemma crop_and_resize_cases image W H tw th x :
  size image = (W, H) -> valid_size (W, H) -> 0 < tw -> 0 < th ->
  int_truediv tw th = Ok x ->
  (exists nw, 0 <= nw <= W /\ H * tw < W * th /\
     crop_and_resize_to_ad_size image tw th =
       Ok (Resize (tw, th)
             (Crop ((W - nw) / 2, 0, (W - nw) / 2 + nw, H) image))) \/
  (exists nh, 0 <= nh <= H /\ W * th < H * tw /\
     crop_and_resize_to_ad_size image tw th =
       Ok (Resize (tw, th)
             (Crop (0, (H - nh) / 2, W, (H - nh) / 2 + nh) image))) \/
  crop_and_resize_to_ad_size image tw th = Ok (Resize (tw, th) image).
Proof.
  intros Hsz Hv Htw Hth Hx.
  destruct (valid_size_small W H Hv) as [HW HH].
  destruct (target_aspect_inv tw th x Htw Hth Hx) as (ta & -> & Ta0 & TaR & Eta).
  remember (crop_and_resize_to_ad_size image tw th) as res eqn:Er.
  unfold crop_and_resize_to_ad_size in Er. rewrite Hsz, Hx in Er.
  rewrite (current_aspect_eval W H) in Er by lia.
  unfold bind at 1 2 in Er. unfold float_gt in Er.
  destruct (float_lt (Fin ta) _) eqn:Cgt.
  - left. apply float_lt_Fin in Cgt.
    pose proof (wider_scaled_width_fits W H ta HW HH TaR Cgt) as Fit.
    destruct (scaled_mul_eval H ta W ltac:(lia) Ta0 ltac:(lia) Fit)
      as (nw & Ev & _ & Hnw).
    unfold bind in Ev, Er.
    destruct (int_mul_float H (Fin ta)) as [s|]; [|discriminate].
    rewrite Ev in Er. exists nw. split; [exact Hnw|]. split; [|exact Er].
    apply aspect_order; try lia. rewrite <- Eta. exact Cgt.
  - destruct (float_lt _ (Fin ta)) eqn:Clt.
    + right. left. apply float_lt_Fin in Clt.
      pose proof (taller_scaled_height_fits W H ta HW HH Ta0 TaR Clt) as Fit.
      assert (Tpos : (0 < ta)%Q).
      { assert (P : (0 <= inject_Z W / inject_Z H)%Q).
        { change 0%Q with (inject_Z 0). apply Qdiv_Z_ge; lia. }
        pose proof (round_nonneg _ P). lra. }
      destruct (scaled_div_eval W ta H ltac:(lia) Tpos ltac:(lia) Fit)
        as (nh & Ev & _ & Hnh).
      unfold bind in Ev, Er.
      destruct (int_div_float W (Fin ta)) as [s|]; [|discriminate].
      rewrite Ev in Er. exists nh. split; [exact Hnh|]. split; [|exact Er].
      assert (L : th * W < tw * H).
      { apply (aspect_order tw th W H); try lia. rewrite <- Eta. exact Clt. }
      lia.
    + right. right. exact Er.
Qed.

(** X8.  For a source of valid size and a positive target whose aspect
    ratio fits a float, [crop_and_resize_to_ad_size] returns: either
    the whole image resized, or a window of full height cut
    horizontally, or a window of full width cut vertically; the window
    is centred, the margin on the right (bottom) being the margin on
    the left (top) or one pixel more. *)
Theorem center_crop_is_centred image tw th :
  valid_size (size image) -> 0 < tw -> 0 < th ->
  tw <= 2 ^ 1023 * th ->
  crop_and_resize_to_ad_size image tw th = Ok (Resize (tw, th) image) \/
  (exists l r,
     crop_and_resize_to_ad_size image tw th =
       Ok (Resize (tw, th) (Crop (l, 0, r, snd (size image)) image)) /\
     0 <= l <= r /\ r <= fst (size image) /\
     l <= fst (size image) - r <= l + 1) \/
  (exists u d,
     crop_and_resize_to_ad_size image tw th =
       Ok (Resize (tw, th) (Crop (0, u, fst (size image), d) image)) /\
     0 <= u <= d /\ d <= snd (size image) /\
     u <= snd (size image) - d <= u + 1).
Proof.
  intros Hv Htw Hth Hfin.
  destruct (target_aspect_finite tw th Htw Hth Hfin) as (x & Ex).
  destruct (size image) as [W H] eqn:Hsz. simpl.
  destruct (crop_and_resize_cases image W H tw th x Hsz Hv Htw Hth Ex)
    as [(nw & Hnw & _ & E) | [(nh & Hnh & _ & E) | E]].
  - right. left. eexists _, _. split; [exact E|].
    pose proof (Z.div_mod (W - nw) 2 ltac:(lia)).
    pose proof (Z.mod_pos_bound (W - nw) 2 ltac:(lia)). lia.
  - right. right. eexists _, _. split; [exact E|].
    pose proof (Z.div_mod (H - nh) 2 ltac:(lia)).
    pose proof (Z.mod_pos_bound (H - nh) 2 ltac:(lia)). lia.
  - left. exact E.
Qed.

Lemma center_crop_is_centred_witness :
  valid_size (size (Source 1024 1024)) /\ 0 < 160 /\ 0 < 600 /\
  160 <= 2 ^ 1023 * 600 /\
  (crop_and_resize_to_ad_size (Source 1024 1024) 160 600
     = Ok (Resize (160, 600) (Source 1024 1024)) \/
   (exists l r,
      crop_and_resize_to_ad_size (Source 1024 1024) 160 600 =
        Ok (Resize (160, 600) (Crop (l, 0, r, 1024) (Source 1024 1024))) /\
      0 <= l <= r /\ r <= 1024 /\ l <= 1024 - r <= l + 1) \/
   (exists u d,
      crop_and_resize_to_ad_size (Source 1024 1024) 160 600 =
        Ok (Resize (160, 600) (Crop (0, u, 1024, d) (Source 1024 1024))) /\
      0 <= u <= d /\ d <= 1024 /\ u <= 1024 - d <= u + 1)).
Proof.
  assert (Hv : valid_size (size (Source 1024 1024)))
    by (unfold valid_size, INT_MAX; simpl; lia).
  assert (Hf : 160 <= 2 ^ 1023 * 600) by (vm_compute; discriminate).
  split; [exact Hv|]. split; [lia|]. split; [lia|]. split; [exact Hf|].
  exact (center_crop_is_centred (Source 1024 1024) 160 600
           Hv ltac:(lia) ltac:(lia) Hf).
Defined.

(** X9.  For a source of valid size and a positive target, when
    [crop_and_resize_to_ad_size] returns a frame: if the two aspect
    ratios are equal ([W * th = H * tw]) nothing is cropped; and a
    crop only ever trims the side that is in excess, the width when the
    source is strictly wider than the target ([H * tw < W * th]), the
    height when it is strictly taller, keeping the other side whole. *)
Theorem crop_only_trims_the_excess image tw th f :
  valid_size (size image) -> 0 < tw -> 0 < th ->
  crop_and_resize_to_ad_size image tw th = Ok f ->
  (fst (size image) * th = snd (size image) * tw ->
     f = Resize (tw, th) image) /\
  (forall l u r d, f = Resize (tw, th) (Crop (l, u, r, d) image) ->
     (snd (size image) * tw < fst (size image) * th /\
      u = 0 /\ d = snd (size image)) \/
     (fst (size image) * th < snd (size image) * tw /\
      l = 0 /\ r = fst (size image))).
Proof.
  intros Hv Htw Hth Hf.
  destruct (int_truediv tw th) as [x | e] eqn:Ex.
  2: { rewrite (crop_and_resize_raises image tw th e Ex) in Hf. discriminate. }
  destruct (size image) as [W H] eqn:Hsz. simpl.
  destruct (crop_and_resize_cases image W H tw th x Hsz Hv Htw Hth Ex)
    as [(nw & Hnw & Lt & E) | [(nh & Hnh & Lt & E) | E]];
    rewrite E in Hf; injection Hf as <-.
  - split; [lia|]. intros l u r d Eq. injection Eq as E1 E2 E3 E4.
    left. repeat split; lia.
  - split; [lia|]. intros l u r d Eq. injection Eq as E1 E2 E3 E4.
    right. repeat split; lia.
  - split; [reflexivity|]. intros l u r d Eq. injection Eq as Eq.
    exfalso. exact (crop_acyclic _ _ (eq_sym Eq)).
Qed.

Lemma crop_only_trims_the_excess_witness :
  valid_size (size (Source 1024 1024)) /\ 0 < 160 /\ 0 < 600 /\
  crop_and_resize_to_ad_size (Source 1024 1024) 160 600
    = Ok (Resize (160, 600) (Crop (375, 0, 648, 1024) (Source 1024 1024))) /\
  1024 * 160 < 1024 * 600.
Proof.
  assert (Hv : valid_size (size (Source 1024 1024)))
    by (unfold valid_size, INT_MAX; simpl; lia).
  assert (Hf : crop_and_resize_to_ad_size (Source 1024 1024) 160 600
               = Ok (Resize (160, 600)
                       (Crop (375, 0, 648, 1024) (Source 1024 1024))))
    by (vm_compute; reflexivity).
  split; [exact Hv|]. split; [lia|]. split; [lia|]. split; [exact Hf|].
  destruct (proj2 (crop_only_trims_the_excess (Source 1024 1024) 160 600 _
                     Hv ltac:(lia) ltac:(lia) Hf)
                  375 0 648 1024 eq_refl) as [(Lt & _) | (Lt & _)].
  - exact Lt.
  - simpl in Lt. lia.
Defined.

(** ** The loop of [main] over the ad sizes *)










(** ** Strings *)

Lemma lstrip_split c s :
  exists p, s = p ++ lstrip c s /\ Forall (fun x => x = c) p.
Proof.
  induction s as [|x s IH].
  - exists []. split; [reflexivity | constructor].
  - simpl. destruct (N.eqb_spec x c) as [-> | NE].
    + destruct IH as (p & E & Hp). exists (c :: p).
      split; [simpl; f_equal; exact E | constructor; auto].
    + exists []. split; [reflexivity | constructor].
Qed.

Lemma lstrip_head c s x rest : lstrip c s = x :: rest -> x <> c.
Proof.
  induction s as [|y s IH]; simpl; [discriminate|].
  destruct (N.eqb_spec y c) as [-> | NE]; [exact IH|].
  intros E. injection E as <- _. exact NE.
Qed.

Lemma rstrip_split c s :
  exists q, s = rstrip c s ++ q /\ Forall (fun x => x = c) q.
Proof.
  unfold rstrip. destruct (lstrip_split c (rev s)) as (p & E & Hp).
  exists (rev p). split.
  - rewrite <- rev_app_distr, <- E, rev_involutive. reflexivity.
  - apply Forall_rev, Hp.
Qed.

Lemma rstrip_last c s init x : rstrip c s = init ++ [x] -> x <> c.
Proof.
  unfold rstrip. intros E.
  apply (f_equal (@rev _)) in E. rewrite rev_involutive, rev_app_distr in E.
  simpl in E. exact (lstrip_head _ _ _ _ E).
Qed.

Lemma rstrip_head c s x rest :
  (forall y r, s = y :: r -> y <> c) -> rstrip c s = x :: rest -> x <> c.
Proof.
  intros Hs E. destruct (rstrip_split c s) as (q & Es & _).
  rewrite E in Es. simpl in Es. exact (Hs _ _ Es).
Qed.

(** [s.strip(c)] removes a run of [c] at each end and nothing else. *)
Lemma strip_split c s :
  exists p q, s = p ++ strip c s ++ q /\
              Forall (fun x => x = c) p /\ Forall (fun x => x = c) q.
Proof.
  unfold strip. destruct (lstrip_split c s) as (p & E & Hp).
  destruct (rstrip_split c (lstrip c s)) as (q & E' & Hq).
  exists p, q. split; [|split; assumption].
  rewrite <- E'. exact E.
Qed.

Lemma strip_ends c s :
  (forall x rest, strip c s = x :: rest -> x <> c) /\
  (forall init x, strip c s = init ++ [x] -> x <> c).
Proof.
  unfold strip. split.
  - intros x rest. apply rstrip_head. intros y r. apply lstrip_head.
  - intros init x. apply rstrip_last.
Qed.

Lemma slice_to_50_length s : (length (slice_to 50 s) <= 50)%nat.
Proof.
  unfold slice_to. change (50 <? 0) with false. cbv iota.
  rewrite length_firstn. lia.
Qed.

Lemma filter_all_out {A} (f : A -> bool) l :
  Forall (fun x => f x = false) l -> filter f l = [].
Proof.
  induction 1 as [|x l Hx _ IH]; [reflexivity|]. simpl. rewrite Hx. exact IH.
Qed.

(** ** [make_folder_name] *)

Section FolderNameFacts.

Variable isalnum : char -> bool.

Let replaced (prompt : str) : str :=
  map (fun c => if isalnum c then c else underscore) (slice_to 50 prompt).

Lemma safe_prompt_split prompt :
  exists p q, replaced prompt = p ++ safe_prompt isalnum prompt ++ q /\
              Forall (fun x => x = underscore) p /\
              Forall (fun x => x = underscore) q.
Proof. apply strip_split. Qed.

Lemma safe_prompt_shape prompt :
  (length (safe_prompt isalnum prompt) <= 50)%nat /\
  Forall (fun c => isalnum c = true \/ c = underscore)
         (safe_prompt isalnum prompt) /\
  (forall c rest, safe_prompt isalnum prompt = c :: rest -> c <> underscore) /\
  (forall init c,
     safe_prompt isalnum prompt = init ++ [c] -> c <> underscore).
Proof.
  destruct (safe_prompt_split prompt) as (p & q & E & _ & _).
  split; [|split].
  - pose proof (slice_to_50_length prompt) as L.
    assert (L' : length (replaced prompt) = length (slice_to 50 prompt))
      by apply length_map.
    rewrite E, !length_app in L'. lia.
  - assert (R : Forall (fun c => isalnum c = true \/ c = underscore)
                       (replaced prompt)).
    { unfold replaced. apply Forall_forall. intros c Hc.
      apply in_map_iff in Hc. destruct Hc as (c0 & <- & _).
      destruct (isalnum c0) eqn:A; [left; exact A | right; reflexivity]. }
    rewrite E in R. apply Forall_app in R. destruct R as [_ R].
    apply Forall_app in R. exact (proj1 R).
  - apply strip_ends.
Qed.

(** X11.  The prompt part of the name [make_folder_name] builds has at
    most 50 characters, each of them alphanumeric or an underscore, and
    neither starts nor ends with an underscore. *)
Theorem safe_prompt_is_safe prompt :
  (length (safe_prompt isalnum prompt) <= 50)%nat /\
  Forall (fun c => isalnum c = true \/ c = underscore)
         (safe_prompt isalnum prompt) /\
  (forall c rest, safe_prompt isalnum prompt = c :: rest -> c <> underscore) /\
  (forall init c,
     safe_prompt isalnum prompt = init ++ [c] -> c <> underscore).
Proof. exact (safe_prompt_shape prompt). Qed.

Hypothesis underscore_not_alnum : isalnum underscore = false.

Lemma filter_replaced prompt :
  filter isalnum (replaced prompt) = filter isalnum (slice_to 50 prompt).
Proof.
  unfold replaced. induction (slice_to 50 prompt) as [|c s IH]; [reflexivity|].
  simpl. destruct (isalnum c) eqn:A.
  - rewrite A. f_equal. exact IH.
  - rewrite underscore_not_alnum. exact IH.
Qed.

(** X12.  Since an underscore is not alphanumeric, [make_folder_name]
    loses no alphanumeric character of the first 50 of the prompt: they
    all appear in the folder name, in order and with repetitions.  The
    prompt part is empty (leaving two underscores in a row in the folder
    name) exactly when the first 50 characters hold no alphanumeric
    one. *)
Theorem safe_prompt_keeps_alphanumerics prompt :
  filter isalnum (safe_prompt isalnum prompt)
    = filter isalnum (slice_to 50 prompt) /\
  (safe_prompt isalnum prompt = [] <->
   Forall (fun c => isalnum c = false) (slice_to 50 prompt)).
Proof.
  destruct (safe_prompt_split prompt) as (p & q & E & Hp & Hq).
  assert (Fp : filter isalnum p = []).
  { apply filter_all_out. eapply Forall_impl; [|exact Hp].
    intros x ->. exact underscore_not_alnum. }
  assert (Fq : filter isalnum q = []).
  { apply filter_all_out. eapply Forall_impl; [|exact Hq].
    intros x ->. exact underscore_not_alnum. }
  assert (K : filter isalnum (safe_prompt isalnum prompt)
              = filter isalnum (slice_to 50 prompt)).
  { rewrite <- filter_replaced, E, !filter_app, Fp, Fq, app_nil_r.
    reflexivity. }
  split; [exact K|]. split.
  - intros Em. rewrite Em in K. simpl in K.
    apply Forall_forall. intros c Hc.
    destruct (isalnum c) eqn:A; [|reflexivity].
    assert (In c (filter isalnum (slice_to 50 prompt)))
      by (apply filter_In; split; assumption).
    rewrite <- K in H. contradiction.
  - intros Hall.
    destruct (safe_prompt isalnum prompt) as [|c rest] eqn:Es; [reflexivity|].
    exfalso.
    destruct (safe_prompt_shape prompt) as (_ & Hok & Hhd & _).
    rewrite Es in Hok, Hhd.
    inversion Hok as [|c' r' Hc _]; subst.
    destruct Hc as [A | U]; [|exact (Hhd c rest eq_refl U)].
    assert (Hin : In c (filter isalnum (slice_to 50 prompt))).
    { rewrite <- K. simpl. rewrite A. left. reflexivity. }
    apply filter_In in Hin. destruct Hin as [Hin _].
    rewrite Forall_forall in Hall. rewrite (Hall c Hin) in A. discriminate.
Qed.

End FolderNameFacts.

Lemma safe_prompt_is_safe_witness :
  safe_prompt is_ascii_alnum (of_string " a cat, on a mat!"%string)
    = of_string "a_cat__on_a_mat"%string /\
  (forall c rest,
     safe_prompt is_ascii_alnum (of_string " a cat, on a mat!"%string)
       = c :: rest -> c <> underscore).
Proof.
  split; [vm_compute; reflexivity|].
  destruct (safe_prompt_is_safe is_ascii_alnum
              (of_string " a cat, on a mat!"%string)) as (_ & _ & Hd & _).
  exact Hd.
Defined.

Lemma safe_prompt_keeps_alphanumerics_witness :
  is_ascii_alnum underscore = false /\
  filter is_ascii_alnum
         (safe_prompt is_ascii_alnum (of_string " a cat, on a mat!"%string))
    = of_string "acatonamat"%string.
Proof.
  assert (Hu : is_ascii_alnum underscore = false) by reflexivity.
  split; [exact Hu|].
  rewrite (proj1 (safe_prompt_keeps_alphanumerics is_ascii_alnum Hu
                    (of_string " a cat, on a mat!"%string))).
  vm_compute. reflexivity.
Defined.

(** ** [sanitize_filename] *)

Lemma ascii_lower_slug c : is_ascii_alnum c = true -> is_slug_char (ascii_lower c) = true.
Proof.
  unfold is_ascii_alnum, ascii_lower, is_slug_char. intros H.
  destruct (N.leb_spec 65 c), (N.leb_spec c 90); simpl;
  repeat match goal with
         | |- context [N.leb ?a ?b] => destruct (N.leb_spec a b); simpl
         | H : context [N.leb ?a ?b] |- _ => destruct (N.leb_spec a b); simpl in H
         end; try reflexivity; try discriminate; lia.
Qed.

Lemma slug_char_fixed c :
  is_slug_char c = true -> is_ascii_alnum c = true /\ ascii_lower c = c.
Proof.
  unfold is_ascii_alnum, ascii_lower, is_slug_char. intros H.
  repeat match goal with
         | |- context [N.leb ?a ?b] => destruct (N.leb_spec a b); simpl
         | H : context [N.leb ?a ?b] |- _ => destruct (N.leb_spec a b); simpl in H
         end; try (split; reflexivity); try discriminate; lia.
Qed.

Lemma cleaned_is_slug text :
  Forall (fun c => is_slug_char c = true)
         (map ascii_lower (filter is_ascii_alnum text)).
Proof.
  apply Forall_forall. intros c Hc. apply in_map_iff in Hc.
  destruct Hc as (c0 & <- & Hc0). apply filter_In in Hc0.
  apply ascii_lower_slug, Hc0.
Qed.

Lemma slice_to_incl k (s : str) x : In x (slice_to k s) -> In x s.
Proof.
  unfold slice_to. destruct (k <? 0); intros H;
    match type of H with
    | In _ (firstn ?n _) =>
        rewrite <- (firstn_skipn n s); apply in_or_app; left; exact H
    end.
Qed.

Lemma slug_is_clean (s : str) :
  Forall (fun c => is_slug_char c = true) s ->
  map ascii_lower (filter is_ascii_alnum s) = s.
Proof.
  induction 1 as [|c s Hc _ IH]; [reflexivity|].
  destruct (slug_char_fixed c Hc) as [A L].
  simpl. rewrite A. simpl. rewrite L, IH. reflexivity.
Qed.

(** X13.  [sanitize_filename] returns only lower-case ASCII letters and
    digits, whatever the text and [max_length].  For [max_length >= 0]
    the result has at most [max_length] characters and sanitising it
    again changes nothing. *)
Theorem sanitize_filename_is_slug text max_length :
  Forall (fun c => is_slug_char c = true)
         (sanitize_filename text max_length) /\
  (0 <= max_length ->
   Z.of_nat (length (sanitize_filename text max_length)) <= max_length) /\
  (0 <= max_length ->
   sanitize_filename (sanitize_filename text max_length) max_length
     = sanitize_filename text max_length).
Proof.
  assert (S : Forall (fun c => is_slug_char c = true)
                     (sanitize_filename text max_length)).
  { unfold sanitize_filename. apply Forall_forall. intros c Hc.
    apply slice_to_incl in Hc.
    exact (proj1 (Forall_forall _ _) (cleaned_is_slug text) c Hc). }
  assert (L : 0 <= max_length ->
              Z.of_nat (length (sanitize_filename text max_length))
                <= max_length).
  { intros Hk. unfold sanitize_filename, slice_to.
    destruct (Z.ltb_spec max_length 0); [lia|].
    rewrite length_firstn. lia. }
  split; [exact S|]. split; [exact L|].
  intros Hk. specialize (L Hk).
  unfold sanitize_filename at 1. rewrite (slug_is_clean _ S).
  unfold slice_to. destruct (Z.ltb_spec max_length 0); [lia|].
  apply firstn_all2. lia.
Qed.

Lemma sanitize_filename_is_slug_witness :
  sanitize_filename (of_string "Limited Time Offer!"%string) 8
    = of_string "limitedt"%string /\
  0 <= 8 /\
  Z.of_nat (length (sanitize_filename
                      (of_string "Limited Time Offer!"%string) 8)) <= 8.
Proof.
  split; [vm_compute; reflexivity|]. split; [lia|].
  apply (proj1 (proj2 (sanitize_filename_is_slug
                         (of_string "Limited Time Offer!"%string) 8))).
  lia.
Defined.

(** ** The sliding crops of [generate_ad_crops] *)

Lemma range_step_positive stop step :
  0 < step ->
  exists xs,
    range_step 0 stop step = Ok xs /\
    Z.of_nat (length xs) = Z.max 0 ((stop - 1) / step + 1) /\
    Forall (fun x => 0 <= x < stop /\ x mod step = 0) xs.
Proof.
  intros Hs. unfold range_step.
  destruct (Z.eqb_spec step 0); [lia|].
  destruct (Z.ltb_spec 0 step); [|lia].
  assert (Ec : (stop - 0 + step - 1) / step = (stop - 1) / step + 1).
  { replace (stop - 0 + step - 1) with (stop - 1 + 1 * step) by lia.
    apply Z.div_add. lia. }
  rewrite Ec. set (count := (stop - 1) / step + 1).
  eexists. split; [reflexivity|]. split.
  - rewrite length_map, length_seq. lia.
  - apply Forall_forall. intros x Hx. apply in_map_iff in Hx.
    destruct Hx as (k & <- & Hk). apply in_seq in Hk.
    assert (Hk' : Z.of_nat k < count) by lia.
    assert (Hq : Z.of_nat k <= (stop - 1) / step) by (unfold count in Hk'; lia).
    assert (Hm : step * ((stop - 1) / step) <= stop - 1)
      by (apply Z.mul_div_le; lia).
    split; [nia|]. rewrite Z.add_0_l. apply Z.mod_mul. lia.
Qed.

Lemma length_flat_map_const {A B} (f : A -> list B) (k : nat) xs :
  (forall x, length (f x) = k) ->
  length (flat_map f xs) = (length xs * k)%nat.
Proof.
  intros Hf. induction xs as [|x xs IH]; [reflexivity|].
  cbn [flat_map length]. rewrite length_app, Hf, IH. lia.
Qed.

(** The crops of one ad size for a positive step. *)
Lemma sliding_crops_positive_step resized new_width new_height
    ad_width ad_height step_size :
  0 < step_size ->
  exists crops,
    sliding_crops resized (new_width, new_height) (ad_width, ad_height)
                  step_size = Ok crops /\
    Forall (crop_at resized (new_width, new_height) (ad_width, ad_height)
                    step_size) crops /\
    (ad_width <= new_width -> ad_height <= new_height ->
     Z.of_nat (length crops) =
       ((new_height - ad_height) / step_size + 1)
       * ((new_width - ad_width) / step_size + 1)).
Proof.
  intros Hs. unfold sliding_crops.
  destruct (Z.gtb_spec ad_width new_width) as [Gw | Gw];
    [exists []; split; [reflexivity | split; [constructor | lia]]|].
  destruct (Z.gtb_spec ad_height new_height) as [Gh | Gh];
    [exists []; split; [reflexivity | split; [constructor | lia]]|].
  cbn [orb].
  destruct (range_step_positive (new_height - ad_height + 1) step_size Hs)
    as (ys & Eys & Lys & Hys).
  destruct (range_step_positive (new_width - ad_width + 1) step_size Hs)
    as (xs & Exs & Lxs & Hxs).
  rewrite Eys, Exs. cbn [bind].
  replace (new_height - ad_height + 1 - 1) with (new_height - ad_height)
    in Lys by lia.
  replace (new_width - ad_width + 1 - 1) with (new_width - ad_width)
    in Lxs by lia.
  assert (0 <= (new_height - ad_height) / step_size) by (apply Z.div_pos; lia).
  assert (0 <= (new_width - ad_width) / step_size) by (apply Z.div_pos; lia).
  eexists. split; [reflexivity|]. split.
  - apply Forall_forall. intros c Hc. apply in_flat_map in Hc.
    destruct Hc as (y & Hy & Hc). apply in_map_iff in Hc.
    destruct Hc as (x & <- & Hx).
    rewrite Forall_forall in Hys, Hxs.
    destruct (Hys y Hy) as [By My]. destruct (Hxs x Hx) as [Bx Mx].
    exists x, y. cbn [fst snd]. repeat split; try assumption; lia.
  - intros _ _.
    rewrite (length_flat_map_const _ (length xs))
      by (intros y; apply length_map).
    rewrite Nat2Z.inj_mul, Lys, Lxs. lia.
Qed.

Lemma crop_at_size resized new_size ad step_size c :
  crop_at resized new_size ad step_size c -> size c = ad.
Proof.
  intros (x & y & -> & _). destruct ad as [aw ah]. cbn [size fst snd].
  f_equal; lia.
Qed.

(** X14.  For a positive step and an ad size that fits the resized
    image, the sliding window of [generate_ad_crops] makes
    [((new_height - ad_height) // step + 1) * ((new_width - ad_width) // step + 1)]
    crops; each has exactly the ad size, lies within the resized image
    and starts at multiples of the step. *)
Theorem sliding_crops_stay_inside resized new_width new_height
    ad_width ad_height step_size :
  0 < step_size -> ad_width <= new_width -> ad_height <= new_height ->
  exists crops,
    sliding_crops resized (new_width, new_height) (ad_width, ad_height)
                  step_size = Ok crops /\
    Z.of_nat (length crops) =
      ((new_height - ad_height) / step_size + 1)
      * ((new_width - ad_width) / step_size + 1) /\
    Forall (fun c =>
              size c = (ad_width, ad_height) /\
              exists x y,
                c = Crop (x, y, x + ad_width, y + ad_height) resized /\
                0 <= x /\ x + ad_width <= new_width /\
                0 <= y /\ y + ad_height <= new_height /\
                x mod step_size = 0 /\ y mod step_size = 0)
           crops.
Proof.
  intros Hs Hw Hh.
  destruct (sliding_crops_positive_step resized new_width new_height
              ad_width ad_height step_size Hs) as (crops & E & F & L).
  exists crops. split; [exact E|]. split; [exact (L Hw Hh)|].
  eapply Forall_impl; [|exact F]. intros c Hc.
  split; [exact (crop_at_size _ _ _ _ _ Hc) | exact Hc].
Qed.

Lemma sliding_crops_stay_inside_witness :
  0 < 50 /\ 300 <= 970 /\ 250 <= 727 /\
  exists crops,
    sliding_crops (Resize (970, 727) (Source 1024 768)) (970, 727)
                  (300, 250) 50 = Ok crops /\
    Z.of_nat (length crops) = 140.
Proof.
  split; [lia|]. split; [lia|]. split; [lia|].
  destruct (sliding_crops_stay_inside
              (Resize (970, 727) (Source 1024 768)) 970 727 300 250 50
              ltac:(lia) ltac:(lia) ltac:(lia)) as (crops & E & L & _).
  exists crops. split; [exact E | exact L].
Defined.

(** X15.  The sliding window of [generate_ad_crops] at its edges: an
    ad size larger than the resized image in either dimension is
    skipped, whatever the step; for an ad size that fits, a step of [0]
    raises [ValueError] (from [range]) and a negative step makes no
    crop at all. *)
Theorem sliding_crops_edge_cases resized new_width new_height
    ad_width ad_height step_size :
  (new_width < ad_width \/ new_height < ad_height ->
   sliding_crops resized (new_width, new_height) (ad_width, ad_height)
                 step_size = Ok []) /\
  (ad_width <= new_width -> ad_height <= new_height -> step_size = 0 ->
   sliding_crops resized (new_width, new_height) (ad_width, ad_height)
                 step_size = Raise ValueError) /\
  (ad_width <= new_width -> ad_height <= new_height -> step_size < 0 ->
   sliding_crops resized (new_width, new_height) (ad_width, ad_height)
                 step_size = Ok []).
Proof.
  unfold sliding_crops. split; [|split].
  - intros [H | H].
    + destruct (Z.gtb_spec ad_width new_width); [reflexivity | lia].
    + destruct (Z.gtb_spec ad_height new_height); [|lia].
      rewrite orb_true_r. reflexivity.
  - intros Hw Hh ->.
    destruct (Z.gtb_spec ad_width new_width); [lia|].
    destruct (Z.gtb_spec ad_height new_height); [lia|]. reflexivity.
  - intros Hw Hh Hs.
    destruct (Z.gtb_spec ad_width new_width); [lia|].
    destruct (Z.gtb_spec ad_height new_height); [lia|]. cbn [orb].
    assert (E : forall stop, 0 < stop -> range_step 0 stop step_size = Ok []).
    { intros stop Hstop. unfold range_step.
      destruct (Z.eqb_spec step_size 0); [lia|].
      destruct (Z.ltb_spec 0 step_size); [lia|].
      assert (N : (0 - stop - step_size - 1) / - step_size < 1).
      { apply Z.div_lt_upper_bound; lia. }
      assert (E0 : Z.to_nat ((0 - stop - step_size - 1) / - step_size) = 0%nat)
        by lia.
      rewrite E0. reflexivity. }
    rewrite !E by lia. reflexivity.
Qed.

Lemma sliding_crops_edge_cases_witness :
  300 <= 970 /\ 250 <= 727 /\
  sliding_crops (Resize (970, 727) (Source 1024 768)) (970, 727)
                (300, 250) 0 = Raise ValueError.
Proof.
  split; [lia|]. split; [lia|].
  exact (proj1 (proj2 (sliding_crops_edge_cases
                         (Resize (970, 727) (Source 1024 768))
                         970 727 300 250 0))
               ltac:(lia) ltac:(lia) eq_refl).
Defined.

(** ** The resize of [generate_ad_crops] *)

Lemma representable_1 : representable 1.
Proof. apply (representable_Z 1). split; [lia | reflexivity]. Qed.







(** ** The crops of one image *)




(** ** The word wrap of [add_text_to_image] *)

Section WordWrapFacts.

Variable text_width : str -> Z.

Lemma wrap_step_inv available done st word :
  wrap_inv text_width available done st ->
  wrap_inv text_width available (done ++ [word])
           (wrap_step text_width available st word).
Proof.
  destruct st as [lines current]. intros (chunks & El & Ec & Fc & Hc).
  cbn [fst snd] in *. unfold wrap_step.
  destruct (Z.leb_spec (text_width (join [space] (current ++ [word]))) available)
    as [Fit | Wide].
  - exists chunks. cbn [fst snd]. split; [exact El|]. split.
    + rewrite app_assoc, Ec. reflexivity.
    + split; [exact Fc|]. right. split.
      * destruct current; discriminate.
      * left. exact Fit.
  - destruct current as [|c0 cs].
    + exists (chunks ++ [[word]]). cbn [fst snd]. split.
      * rewrite map_app, El. reflexivity.
      * split.
        -- rewrite concat_app. cbn [concat]. rewrite !app_nil_r.
           rewrite app_nil_r in Ec. rewrite Ec. reflexivity.
        -- split; [|left; reflexivity].
           apply Forall_app. split; [exact Fc|].
           constructor; [|constructor]. split; [discriminate | right; reflexivity].
    + exists (chunks ++ [c0 :: cs]). cbn [fst snd]. split.
      * rewrite map_app, El. reflexivity.
      * split.
        -- rewrite concat_app. cbn [concat]. rewrite app_nil_r, Ec.
           reflexivity.
        -- split.
           ++ apply Forall_app. split; [exact Fc|].
              constructor; [|constructor].
              destruct Hc as [Hc | Hc]; [discriminate | exact Hc].
           ++ right. split; [discriminate | right; reflexivity].
Qed.

Lemma wrap_fold_inv available words done st :
  wrap_inv text_width available done st ->
  wrap_inv text_width available (done ++ words)
           (fold_left (wrap_step text_width available) words st).
Proof.
  revert done st. induction words as [|w ws IH]; intros done st Hi.
  - rewrite app_nil_r. exact Hi.
  - cbn [fold_left].
    replace (done ++ w :: ws) with ((done ++ [w]) ++ ws)
      by (rewrite <- app_assoc; reflexivity).
    apply IH, wrap_step_inv, Hi.
Qed.

(** X18.  The word wrap of [add_text_to_image], for any font metric:
    the lines drawn are the words of the text cut into consecutive
    groups and joined by single spaces, so every word is drawn exactly
    once and in order; no line is empty; and every line either fits the
    available width [img_width - 2 * offset] or is a single word. *)
Theorem wrap_words_partition img_width offset words :
  exists chunks,
    wrap_words text_width img_width offset words
      = map (join [space]) chunks /\
    concat chunks = words /\
    Forall (line_ok text_width (img_width - offset * 2)) chunks.
Proof.
  unfold wrap_words.
  assert (I0 : wrap_inv text_width (img_width - offset * 2) [] ([], [])).
  { exists []. cbn. repeat split; [constructor | left; reflexivity]. }
  pose proof (wrap_fold_inv _ words [] _ I0) as Hi. cbn [app] in Hi.
  destruct (fold_left _ words ([], [])) as [lines current].
  destruct Hi as (chunks & El & Ec & Fc & Hc). cbn [fst snd] in *.
  destruct current as [|c0 cs].
  - exists chunks. rewrite app_nil_r in Ec. auto.
  - exists (chunks ++ [c0 :: cs]). split.
    + rewrite map_app, El. reflexivity.
    + split.
      * rewrite concat_app. cbn [concat]. rewrite app_nil_r. exact Ec.
      * apply Forall_app. split; [exact Fc|].
        constructor; [|constructor].
        destruct Hc as [Hc | Hc]; [discriminate | exact Hc].
Qed.

End WordWrapFacts.

(** ** [site_ctr_test] *)

Section BinomialTestFacts.

Variable binomtest_less : Z -> Z -> float -> result float.
Variable interpret : bool -> float -> float -> str.

(** X19.  [site_ctr_test] raises [ValueError] when
    [impressions <= 0] or [clicks] is outside [0 .. impressions],
    before the binomial test is run.  For valid counts, when SciPy
    returns a p-value, the function returns it unchanged, reports
    significance exactly when [p_value < alpha], and the observed CTR
    is a finite float between [0] and [1], exactly [0] for no clicks
    and exactly [1] when every impression was clicked. *)
Theorem site_ctr_test_validates clicks impressions target_ctr alpha :
  (impressions <= 0 \/ clicks < 0 \/ impressions < clicks ->
   site_ctr_test binomtest_less interpret clicks impressions target_ctr alpha
     = Raise ValueError) /\
  (0 < impressions -> 0 <= clicks <= impressions ->
   forall p,
     binomtest_less clicks impressions target_ctr = Ok p ->
     exists r,
       site_ctr_test binomtest_less interpret clicks impressions
                     target_ctr alpha = Ok r /\
       p_value r = p /\
       significant r = float_lt p alpha /\
       exists q, observed_ctr r = Fin q /\ (0 <= q <= 1)%Q /\
                 (clicks = 0 -> q == 0) /\
                 (clicks = impressions -> q == 1)).
Proof.
  unfold site_ctr_test. split.
  - intros Hbad.
    destruct (Z.leb_spec impressions 0); [reflexivity|].
    destruct (Z.leb_spec 0 clicks); [|reflexivity].
    destruct (Z.leb_spec clicks impressions); [lia | reflexivity].
  - intros Hi Hc p Ep.
    destruct (Z.leb_spec impressions 0); [lia|].
    destruct (Z.leb_spec 0 clicks); [|lia].
    destruct (Z.leb_spec clicks impressions); [|lia]. cbn [andb negb].
    rewrite Ep. cbn [bind].
    rewrite int_truediv_eval by lia.
    assert (Qi : (0 < inject_Z impressions)%Q) by (apply inject_Z_pos; lia).
    assert (Qc : (0 <= inject_Z clicks)%Q) by (apply inject_Z_nonneg; lia).
    assert (Qci : (inject_Z clicks <= inject_Z impressions)%Q)
      by (rewrite <- Zle_Qle; lia).
    assert (P : (0 <= inject_Z clicks / inject_Z impressions)%Q).
    { apply Qle_shift_div_l; [assumption | lra]. }
    assert (B : (inject_Z clicks / inject_Z impressions <= 1)%Q).
    { apply Qle_shift_div_r; [assumption | lra]. }
    assert (R1 : (round (inject_Z clicks / inject_Z impressions) <= 1)%Q).
    { apply round_le_repr; [assumption | assumption | apply representable_1]. }
    pose proof (round_nonneg _ P) as R0.
    rewrite overflows_false; [| assumption |].
    + cbn [bind]. eexists. split; [reflexivity|]. cbn.
      split; [reflexivity|]. split; [reflexivity|].
      eexists. split; [reflexivity|]. split; [split; assumption|]. split.
      * intros ->. apply Qeq_trans with (round 0).
        -- apply round_comp; [assumption|]. unfold Qdiv. change (inject_Z 0) with 0%Q. ring.
        -- apply round_fix; [lra | apply representable_0].
      * intros ->. apply Qeq_trans with (round 1).
        -- apply round_comp; [assumption|]. field. lra.
        -- apply round_fix; [lra | apply representable_1].
    + pose proof (Z_below_emax 1 ltac:(reflexivity)).
      change (inject_Z 1) with 1%Q in *. lra.
Qed.

End BinomialTestFacts.

Lemma site_ctr_test_validates_witness :
  0 < 5000 /\ 0 <= 0 <= 5000 /\
  exists r,
    site_ctr_test (fun _ _ _ => Ok (Fin (1 # 150))) (fun _ _ _ => [])
                  0 5000 (Fin (1 # 1024)) (Fin (1 # 128)) = Ok r /\
    p_value r = Fin (1 # 150).
Proof.
  split; [lia|]. split; [lia|].
  destruct (proj2 (site_ctr_test_validates
                     (fun _ _ _ => Ok (Fin (1 # 150))) (fun _ _ _ => [])
                     0 5000 (Fin (1 # 1024)) (Fin (1 # 128)))
                  ltac:(lia) ltac:(lia) (Fin (1 # 150)) eq_refl)
    as (r & E & P & _).
  exists r. split; [exact E | exact P].
Defined.
